(** * FIDO-saliency, exp/synthetic/OracleInpainter.py

    A shallow embedding of the oracle inpainter for the mixture-of-blocks
    data set and of its mask generators, with the properties of the
    written specification stated and settled against it.

    Conventions of the embedding.
    - Tensor and array cells are exact rationals ([Q]): float rounding is
      not modelled.  The only place where finite inputs can produce a
      non-finite float is the final division of [infer_label_probs]; its
      result type [fl] carries the IEEE values NaN and the infinities.
    - A tensor is its shape together with its cells in row-major order.
    - Elementwise binary operations are defined for operands of equal
      shape; torch's broadcasting of unequal shapes is not modelled (the
      model raises instead).
    - Python exceptions are values of [exn]; the process-wide random state
      is threaded explicitly through every sampling operation.
    - Code that the file imports from elsewhere (torch and numpy samplers,
      the exponential, [median_pool.MedianPool2d], the constants and
      helpers of [datasets.MixtureOfBlocks]) is the interface [Externals]. *)

From Stdlib Require Import String Ascii.
From Stdlib Require Import List ZArith QArith Qminmax Qfield Lqa.
From Stdlib Require Import Lia Bool Permutation Sorted PeanoNat.
Import ListNotations.

Local Open Scope Q_scope.

Set Implicit Arguments.

(* ================================================================== *)
(** * Exceptions and results *)

Inductive exn : Type :=
| AssertionError (msg : string)
| TypeError (msg : string)
| IndexError (msg : string)
| ValueError (msg : string)
| RuntimeError (msg : string)
| ZeroDivisionError (msg : string).

Definition result (A : Type) : Type := (exn + A)%type.

Definition Ok {A : Type} (a : A) : result A := inr a.
Definition Raise {A : Type} (e : exn) : result A := inl e.

Definition rbind {A B : Type} (r : result A) (k : A -> result B) : result B :=
  match r with
  | inl e => inl e
  | inr a => k a
  end.

Fixpoint rmapM {A B : Type} (f : A -> result B) (l : list A) : result (list B) :=
  match l with
  | [] => Ok []
  | a :: l' =>
      rbind (f a) (fun b => rbind (rmapM f l') (fun bs => Ok (b :: bs)))
  end.

(** Computations that read and advance a random state of type [S]
    and may raise. *)
Definition M (S A : Type) : Type := S -> result (A * S).

Definition ret {S A : Type} (a : A) : M S A := fun g => Ok (a, g).

Definition bind {S A B : Type} (m : M S A) (k : A -> M S B) : M S B :=
  fun g =>
    match m g with
    | inl e => inl e
    | inr (a, g') => k a g'
    end.

Definition lift {S A : Type} (r : result A) : M S A :=
  fun g =>
    match r with
    | inl e => inl e
    | inr a => Ok (a, g)
    end.

(** A sampler that cannot fail, as a computation. *)
Definition draw {S A : Type} (f : S -> A * S) : M S A := fun g => Ok (f g).

Notation "x <- m ;; k" := (bind m (fun x => k))
  (at level 61, m at next level, right associativity).

Fixpoint replicateM {S A : Type} (n : nat) (m : M S A) : M S (list A) :=
  match n with
  | O => ret []
  | S n' => a <- m ;; l <- replicateM n' m ;; ret (a :: l)
  end.

Fixpoint mapM {S A B : Type} (f : A -> M S B) (l : list A) : M S (list B) :=
  match l with
  | [] => ret []
  | a :: l' => b <- f a ;; bs <- mapM f l' ;; ret (b :: bs)
  end.

(* ================================================================== *)
(** * Floats that need not be finite *)

Inductive fl : Type :=
| Fin (q : Q)
| PInf
| NInf
| NaN.

(** IEEE division of two finite values, exact where the quotient is finite. *)
Definition fdiv (a b : Q) : fl :=
  if Qeq_bool b 0 then
    if Qeq_bool a 0 then NaN
    else if Qle_bool 0 a then PInf else NInf
  else Fin (a / b).

Definition fl_eq (a b : fl) : Prop :=
  match a, b with
  | Fin p, Fin q => p == q
  | PInf, PInf | NInf, NInf | NaN, NaN => True
  | _, _ => False
  end.

Definition is_fin (a : fl) : bool :=
  match a with Fin _ => true | _ => false end.

(** A cell that is a number different from zero; NaN and the infinities
    are not zero either. *)
Definition fl_nonzero (a : fl) : bool :=
  match a with
  | Fin q => negb (Qeq_bool q 0)
  | _ => true
  end.

(* ================================================================== *)
(** * Tensors *)

Record tensor (A : Type) : Type := mkTensor {
  shape : list nat;
  data : list A
}.

Definition numel (s : list nat) : nat := fold_right Nat.mul 1%nat s.

Definition wf_tensor {A : Type} (t : tensor A) : Prop :=
  length (data t) = numel (shape t).

Definition shape_eqb (s1 s2 : list nat) : bool :=
  if list_eq_dec Nat.eq_dec s1 s2 then true else false.

Definition tmap {A B : Type} (f : A -> B) (t : tensor A) : tensor B :=
  mkTensor (shape t) (map f (data t)).

Fixpoint zipWith {A B C : Type} (f : A -> B -> C) (l1 : list A) (l2 : list B)
  : list C :=
  match l1, l2 with
  | a :: l1', b :: l2' => f a b :: zipWith f l1' l2'
  | _, _ => []
  end.

(** [a op b] for tensors of one shape. *)
Definition tzip (f : Q -> Q -> Q) (a b : tensor Q) : result (tensor Q) :=
  if shape_eqb (shape a) (shape b)
  then Ok (mkTensor (shape a) (zipWith f (data a) (data b)))
  else Raise (RuntimeError "operands of different shapes").

Definition tadd : tensor Q -> tensor Q -> result (tensor Q) := tzip Qplus.
Definition tmul : tensor Q -> tensor Q -> result (tensor Q) := tzip Qmult.

(** [1. - t] and [t * c] with a Python scalar. *)
Definition one_minus (t : tensor Q) : tensor Q := tmap (fun v => 1 - v) t.
Definition tscale (t : tensor Q) (c : Q) : tensor Q := tmap (fun v => v * c) t.

(** [n] consecutive chunks of [len] cells each. *)
Fixpoint chunks {A : Type} (len n : nat) (l : list A) : list (list A) :=
  match n with
  | O => []
  | S n' => firstn len l :: chunks len n' (skipn len l)
  end.

(** [t.squeeze()]: every dimension of size one is dropped. *)
Definition squeeze {A : Type} (t : tensor A) : tensor A :=
  mkTensor (filter (fun d => negb (Nat.eqb d 1)) (shape t)) (data t).

(** [t.unsqueeze(0)]. *)
Definition unsqueeze0 {A : Type} (t : tensor A) : tensor A :=
  mkTensor (1%nat :: shape t) (data t).

(** [len(t)]. *)
Definition len {A : Type} (t : tensor A) : result nat :=
  match shape t with
  | [] => Raise (TypeError "len() of a 0-d tensor")
  | n :: _ => Ok n
  end.

(** Iterating a numpy array yields its sub-arrays along the first axis;
    a zero-dimensional array cannot be iterated. *)
Definition iter_array {A : Type} (t : tensor A) : result (list (tensor A)) :=
  match shape t with
  | [] => Raise (TypeError "iteration over a 0-d array")
  | n :: s => Ok (map (fun c => mkTensor s c) (chunks (numel s) n (data t)))
  end.

(** [torch.stack(ts, 0)]. *)
Definition stack {A : Type} (ts : list (tensor A)) : result (tensor A) :=
  match ts with
  | [] => Raise (RuntimeError "stack expects a non-empty TensorList")
  | t :: _ =>
      if forallb (fun u => shape_eqb (shape u) (shape t)) ts
      then Ok (mkTensor (length ts :: shape t) (concat (map (@data A) ts)))
      else Raise (RuntimeError "stack expects each tensor to be equal size")
  end.

(** The sum of a list, kept in lowest terms. *)
Fixpoint Qsum (l : list Q) : Q :=
  match l with
  | [] => 0
  | v :: l' => Qred (v + Qsum l')
  end.

Fixpoint Qmax_list (d : Q) (l : list Q) : Q :=
  match l with
  | [] => d
  | v :: l' => Qmax_list (Qmax d v) l'
  end.

Definition max_of (c : list Q) : Q :=
  match c with
  | [] => 0
  | v :: c' => Qmax_list v c'
  end.

(** [t.max(-1)[0]]: the maximum along the last dimension. *)
Definition max_last (t : tensor Q) : result (tensor Q) :=
  match rev (shape t) with
  | [] => Raise (IndexError "dimension out of range")
  | O :: _ => Raise (RuntimeError "max over a dimension of size 0")
  | n :: rs =>
      Ok (mkTensor (rev rs) (map max_of (chunks n (numel (rev rs)) (data t))))
  end.

(** [v.clamp(lo, hi)] on one cell. *)
Definition clamp (lo hi v : Q) : Q := Qmin (Qmax v lo) hi.

(* ================================================================== *)
(** * Four-dimensional access and pooling *)

Definition init4 (B C H W : nat) (f : nat -> nat -> nat -> nat -> Q) : tensor Q :=
  mkTensor [B; C; H; W]
    (flat_map (fun b =>
       flat_map (fun c =>
         flat_map (fun i => map (fun j => f b c i j) (seq 0 W)) (seq 0 H))
         (seq 0 C))
       (seq 0 B)).

Definition get4 (t : tensor Q) (b c i j : nat) : Q :=
  match shape t with
  | [_; C; H; W] => nth (((b * C + c) * H + i) * W + j) (data t) 0
  | _ => 0
  end.

(** The cells of the [k] by [k] window whose corner is at [(i*s, j*s)]. *)
Definition window (t : tensor Q) (b c i j k s : nat) : list Q :=
  flat_map (fun di =>
    map (fun dj => get4 t b c (i * s + di) (j * s + dj)) (seq 0 k)) (seq 0 k).

(** A pooling layer without padding over a batch of shape [B; C; H; W]:
    one output cell per window position; [agg] is the statistic taken of
    each window. *)
Definition pool2d (agg : list Q -> Q) (kernel stride : Z) (t : tensor Q)
  : result (tensor Q) :=
  match shape t with
  | [B; C; H; W] =>
      if ((kernel <=? 0) || (stride <=? 0))%Z
      then Raise (RuntimeError "kernel size and stride must be positive")
      else
        let k := Z.to_nat kernel in
        let s := Z.to_nat stride in
        if ((H <? k) || (W <? k))%nat
        then Raise (RuntimeError "Output size is too small")
        else Ok (init4 B C ((H - k) / s + 1) ((W - k) / s + 1)
                   (fun b c i j => agg (window t b c i j k s)))
  | _ => Raise (RuntimeError "expected a 4D input")
  end.

Definition mean (w : list Q) : Q := Qsum w / inject_Z (Z.of_nat (length w)).

(** [torch.nn.AvgPool2d(kernel_size, stride)] applied to a batch. *)
Definition AvgPool2d_forward : Z -> Z -> tensor Q -> result (tensor Q) :=
  pool2d mean.

(** [t[:, :, 1:-1, 1:-1]] for a filter response, which has four
    dimensions; Python's [1:-1] of fewer than three items is empty. *)
Definition crop_border (t : tensor Q) : result (tensor Q) :=
  match shape t with
  | [B; C; H; W] =>
      Ok (init4 B C (H - 2) (W - 2)
            (fun b c i j => get4 t b c (i + 1) (j + 1)))
  | _ => Raise (IndexError "too many indices for tensor")
  end.

(** [t.view(B, -1)], as the list of its [B] rows.  The size that [-1]
    stands for is the number of cells divided by [B]: for [B >= 1] a
    tensor without cells is viewed as [B] empty rows, and only for
    [B = 0] is the size left open. *)
Definition view_rows (B : nat) (t : tensor Q) : result (list (list Q)) :=
  let n := numel (shape t) in
  if (B =? 0)%nat
  then
    if (n =? 0)%nat
    then Raise (RuntimeError "cannot reshape tensor of 0 elements: -1 is ambiguous")
    else Raise (RuntimeError "shape is invalid for input size")
  else if (n mod B =? 0)%nat
  then Ok (chunks (n / B) B (data t))
  else Raise (RuntimeError "shape is invalid for input size").

(* ================================================================== *)
(** * Sorting and the top-two heuristic *)

Fixpoint insert_desc (v : Q) (l : list Q) : list Q :=
  match l with
  | [] => [v]
  | u :: l' => if Qle_bool u v then v :: l else u :: insert_desc v l'
  end.

(** The values of [torch.sort(l, descending=True)]. *)
Definition sort_desc (l : list Q) : list Q := fold_right insert_desc [] l.

(** [sorted_probs[:, 2]] for one row. *)
Definition third_highest (p : list Q) : result Q :=
  match nth_error (sort_desc p) 2 with
  | Some v => Ok v
  | None => Raise (IndexError "index 2 is out of bounds for dimension 1")
  end.

(** [(v > thr).float()]. *)
Definition gt_float (v thr : Q) : Q := if Qle_bool v thr then 0 else 1.

(** Line 52 for one row: [p * (p > sorted[2]).float()]. *)
Definition take_top_two (p : list Q) : result (list Q) :=
  rbind (third_highest p) (fun thr => Ok (map (fun v => v * gt_float v thr) p)).

(** Line 53 for one row: [p / p.sum()]. *)
Definition renormalize (p : list Q) : list fl :=
  map (fun v => fdiv v (Qsum p)) p.

(** Lines 51 to 53 for one row. *)
Definition sparsify (p : list Q) : result (list fl) :=
  rbind (take_top_two p) (fun q => Ok (renormalize q)).

(* ================================================================== *)
(** * Strings *)

Definition lower_ascii (c : ascii) : ascii :=
  let n := nat_of_ascii c in
  if ((65 <=? n) && (n <=? 90))%nat then ascii_of_nat (n + 32) else c.

(** [s.lower()] on ASCII text. *)
Fixpoint lower (s : string) : string :=
  match s with
  | EmptyString => EmptyString
  | String c s' => String (lower_ascii c) (lower s')
  end.

(** Python's [s in l] for a list of strings. *)
Definition str_in (s : string) (l : list string) : bool :=
  existsb (String.eqb s) l.

(* ================================================================== *)
(** * Slices and rolls of numpy arrays *)

(** A slice bound [i] of Python normalised for a dimension of size [n]. *)
Definition slice_bound (n : nat) (i : Z) : Z :=
  if (i <? 0)%Z then Z.max (i + Z.of_nat n) 0 else Z.min i (Z.of_nat n).

(** Whether index [i] of a dimension of size [n] lies in [start:stop]. *)
Definition in_slice (n : nat) (start stop : Z) (i : nat) : bool :=
  ((slice_bound n start <=? Z.of_nat i) && (Z.of_nat i <? slice_bound n stop))%Z.

(** An array of shape [H; W] followed by [R] trailing cells per position. *)
Definition init3 (H W R : nat) (f : nat -> nat -> nat -> Q) : list Q :=
  flat_map (fun i =>
    flat_map (fun j => map (fun r => f i j r) (seq 0 R)) (seq 0 W)) (seq 0 H).

Definition get3 (W R : nat) (d : list Q) (i j r : nat) : Q :=
  nth ((i * W + j) * R + r) d 0.

(** [np.roll(a, shift, 1)]: cell [j] of axis 1 receives cell
    [(j - shift) mod W]. *)
Definition np_roll1 (H W R : nat) (d : list Q) (shift : Z) : list Q :=
  init3 H W R (fun i j r =>
    get3 W R d i (Z.to_nat ((Z.of_nat j - shift) mod Z.of_nat W)) r).

(* ================================================================== *)
(** * What the file imports *)

(** The samplers of torch and numpy over the process-wide random state,
    the exponential behind [F.softmax], the median filter of
    [median_pool], and the members of [datasets.MixtureOfBlocks] that the
    file uses.  None of them is defined in the file; the program below is
    written against this interface. *)
Class Externals : Type := {
  (** the random state seeded by [np.random.seed] and [torch.manual_seed] *)
  rng : Type;
  (** one standard normal draw of [torch.randn] *)
  randn1 : rng -> Q * rng;
  (** one draw of [torch.multinomial] from a row of valid weights *)
  multinomial1 : list Q -> rng -> nat * rng;
  (** one draw of [np.random.binomial(n, p)] *)
  binomial : Z -> Q -> rng -> Z * rng;
  (** [np.random.choice(range(n))] for a positive [n] *)
  choice : Z -> rng -> Z * rng;
  (** the exponential of [F.softmax] *)
  exp_ : Q -> Q;
  (** [MedianPool2d(kernel_size, stride)] applied to a batch *)
  MedianPool2d_forward : Z -> Z -> tensor Q -> result (tensor Q);
  (** [MixtureOfBlocks.block_width] *)
  block_width : Z;
  (** [MixtureOfBlocks.num_labels] *)
  num_labels : Z;
  (** [MixtureOfBlocks.noise_level] *)
  noise_level : Q;
  (** [MixtureOfBlocks._label_to_patch_pixels(label, width, stride)]:
      [(row_start, row_end, col_start, col_end)] *)
  _label_to_patch_pixels : Z -> Z -> Z -> Z * Z * Z * Z;
  (** [MixtureOfBlocks.generate_image(beta, label)] *)
  generate_image : tensor Q -> tensor Z -> tensor Q;
  (** cell [i] of the storage that [torch.Tensor(n)] allocates for a size
      [n] and does not initialise; nothing is assumed about it *)
  uninitialized : nat -> Q
}.

(** What the properties below rely on: the exponential is positive, and a
    binomial draw counts successes among its [n] trials. *)
Class ExternalsLaws (E : Externals) : Prop := {
  exp_pos : forall q : Q, 0 < exp_ q;
  binomial_range :
    forall (n : Z) (p : Q) (g : rng),
      (0 <= n)%Z -> 0 <= p -> p <= 1 ->
      (0 <= fst (binomial n p g) <= n)%Z
}.

(* ================================================================== *)
(** * The program *)

Section Program.

Context {E : Externals}.

(** ** class OracleInpainter *)

Inductive filter_class : Type := MedianPool2d | AvgPool2d.

Record pool : Type := mkPool {
  pool_class : filter_class;
  kernel_size : Z;
  stride : Z
}.

Record OracleInpainter : Type := mkOracleInpainter { filt : pool }.

(** What a call of the constructor does, in order. *)
Inductive init_event : Type :=
| SuperInit
| BuildFilter (f : pool).

Definition supported_modes : list string := ["median"; "avg"; "average"]%string.

(** Lines 15 to 21.  The trace lists the steps taken before the call
    returned or raised. *)
Definition __init__ (mode : string) : list init_event * result OracleInpainter :=
  let trace := [SuperInit] in
  if str_in (lower mode) supported_modes then
    let filter_class :=
      if String.eqb (lower mode) "median" then MedianPool2d else AvgPool2d in
    let f := mkPool filter_class block_width (block_width / 2)%Z in
    (trace ++ [BuildFilter f], Ok (mkOracleInpainter f))
  else (trace, Raise (AssertionError "unsupported mode")).

(** [self.filt(t)]. *)
Definition filt_forward (f : pool) (t : tensor Q) : result (tensor Q) :=
  match pool_class f with
  | MedianPool2d => MedianPool2d_forward (kernel_size f) (stride f) t
  | AvgPool2d => AvgPool2d_forward (kernel_size f) (stride f) t
  end.

(** [torch.randn( *s )]. *)
Definition randn (s : list nat) : M rng (tensor Q) :=
  match s with
  | [] => lift (Raise (TypeError "randn() received no size"))
  | _ => l <- replicateM (numel s) (draw randn1) ;; ret (mkTensor s l)
  end.

(** [F.softmax] of one row. *)
Definition softmax (row : list Q) : list Q :=
  let e := map exp_ row in
  map (fun v => v / Qsum e) e.

(** Line 45: the image with noise in place of its masked cells. *)
Definition masked_input (x mask : tensor Q) : M rng (tensor Q) :=
  visible <- lift (tmul (one_minus mask) x) ;;
  noise <- randn (shape mask) ;;
  noisy <- lift (tmul (tscale mask noise_level) noise) ;;
  lift (tadd visible noisy).

(** Lines 45 to 48: the cropped filter response. *)
Definition label_logits (self : OracleInpainter) (x mask : tensor Q)
  : M rng (tensor Q) :=
  xm <- masked_input x mask ;;
  logits <- lift (filt_forward (filt self) xm) ;;
  lift (crop_border logits).

(** Lines 45 to 49: the cropped response and the softmax of each of its
    rows, before the heuristic. *)
Definition softmax_probs (self : OracleInpainter) (x mask : tensor Q)
  : M rng (tensor Q * list (list Q)) :=
  logits <- label_logits self x mask ;;
  B <- lift (len x) ;;
  rows <- lift (view_rows B logits) ;;
  ret (logits, map softmax rows).

(** Lines 44 to 57. *)
Definition infer_label_probs (self : OracleInpainter) (x mask : tensor Q)
  (imshape : bool) : M rng (tensor fl) :=
  lp <- softmax_probs self x mask ;;
  rows <- lift (rmapM sparsify (snd lp)) ;;
  ret (mkTensor
         (if imshape then shape (fst lp)
          else [length rows; (numel (shape (fst lp)) / length rows)%nat])
         (concat rows)).

(** A row that [torch.multinomial] accepts: finite, non-negative weights
    of positive sum. *)
Definition weight (v : fl) : result Q :=
  match v with
  | Fin q =>
      if Qle_bool 0 q then Ok q
      else Raise (RuntimeError "probability tensor contains either inf, nan or element < 0")
  | _ => Raise (RuntimeError "probability tensor contains either inf, nan or element < 0")
  end.

Definition weights (row : list fl) : result (list Q) :=
  rbind (rmapM weight row) (fun w =>
    if Qle_bool (Qsum w) 0
    then Raise (RuntimeError "invalid multinomial distribution (sum of probabilities <= 0)")
    else Ok w).

(** [torch.multinomial(t, 1, replacement=True)]. *)
Definition multinomial (t : tensor fl) : M rng (tensor Z) :=
  match shape t with
  | [B; L] =>
      ws <- lift (rmapM weights (chunks L B (data t))) ;;
      l <- mapM (fun w => draw (multinomial1 w)) ws ;;
      ret (mkTensor [B; 1%nat] (map Z.of_nat l))
  | [L] =>
      w <- lift (weights (data t)) ;;
      i <- draw (multinomial1 w) ;;
      ret (mkTensor [1%nat] [Z.of_nat i])
  | _ => lift (Raise (RuntimeError "prob_dist must be 1 or 2 dim"))
  end.

(** Line 35: [x.max(-1)[0].max(-1)[0].clamp(0., 1.).squeeze().numpy()]. *)
Definition estimate_betas (x : tensor Q) : result (tensor Q) :=
  rbind (max_last x) (fun m1 =>
  rbind (max_last m1) (fun m2 =>
  Ok (squeeze (tmap (clamp 0 1) m2)))).

(** Lines 28 to 42. *)
Definition generate_background (self : OracleInpainter) (x mask : tensor Q)
  : M rng (tensor Q) :=
  label_probs <- infer_label_probs self x mask false ;;
  samples <- multinomial label_probs ;;
  let label_samps := squeeze samples in
  betas <- lift (estimate_betas x) ;;
  labels <- lift (iter_array label_samps) ;;
  betas' <- lift (iter_array betas) ;;
  lift (stack (map (fun lb => generate_image (snd lb) (fst lb))
                 (combine labels betas'))).

(** Lines 24 to 26. *)
Definition impute_missing_imgs (self : OracleInpainter) (x mask : tensor Q)
  : M rng (tensor Q) :=
  backgnd <- generate_background self x mask ;;
  kept <- lift (tmul x mask) ;;
  filled <- lift (tmul backgnd (one_minus mask)) ;;
  lift (tadd kept filled).

(** ** The mask generators *)

(** [torch.Tensor(d)] for a zero-dimensional array [d]: the legacy
    constructor takes an integer for a size, so the result is a vector of
    [d] cells that are not initialised. *)
Definition tensor_of_size (d : Z) : result (tensor Q) :=
  if (d <? 0)%Z
  then Raise (RuntimeError "Trying to create tensor with negative dimension")
  else Ok (mkTensor [Z.to_nat d] (map uninitialized (seq 0 (Z.to_nat d)))).

(** Lines 60 and 61.  numpy refuses a [p] outside [0, 1].  For an image
    shape of at least one dimension the draws form an array of that
    shape, which [torch.Tensor] copies.  For the empty shape numpy
    returns a single zero-dimensional draw, which [torch.Tensor] reads
    as a size. *)
Definition random_mask (im_shape : list nat) (p : Q) : M rng (tensor Q) :=
  if Qle_bool 0 p && Qle_bool p 1 then
    match im_shape with
    | [] =>
        d <- draw (binomial 1 p) ;;
        t <- lift (tensor_of_size d) ;;
        ret (unsqueeze0 t)
    | _ =>
        l <- replicateM (numel im_shape) (draw (binomial 1 p)) ;;
        ret (unsqueeze0 (mkTensor im_shape (map inject_Z l)))
    end
  else lift (Raise (ValueError "p < 0, p > 1 or p is NaN")).

(** Lines 64 and 65. *)
Definition random_mask_batch (batch_size : nat) (im_shape : list nat) (p : Q)
  : M rng (tensor Q) :=
  ms <- replicateM batch_size (random_mask im_shape p) ;;
  lift (stack ms).

(** [np.random.choice(range(n))]. *)
Definition np_choice (n : Z) : M rng Z :=
  if (n <=? 0)%Z then lift (Raise (ValueError "a must be non-empty"))
  else draw (choice n).

(** Line 79.  [int(n ** 0.5)] is the integer square root of a
    non-negative [n]; a negative [n] has a complex power. *)
Definition half_block_offset (label : Z) : result Z :=
  if (num_labels <? 0)%Z
  then Raise (TypeError "int() argument must not be complex")
  else
    let k := Z.sqrt num_labels in
    if (k =? 0)%Z
    then Raise (ZeroDivisionError "integer modulo by zero")
    else Ok (((if (label mod k <? 2)%Z then -1 else 1) * block_width) / 2)%Z.

(** Lines 72 to 76: the ground-truth block as an array of shape [H; W]
    with [R] trailing cells per position. *)
Definition ground_truth_block (H W R : nat) (patch : Z * Z * Z * Z) : list Q :=
  let '(row_start, row_end, col_start, col_end) := patch in
  init3 H W R (fun i j _ =>
    if in_slice H row_start row_end i && in_slice W col_start col_end j
    then 0 + 1 else 0).

(** Lines 81 and 82. *)
Definition half_block_cells (H W R : nat) (block : list Q) (offset : Z) : list Q :=
  let mask := zipWith Qmult block (np_roll1 H W R block offset) in
  zipWith Qplus mask
    (zipWith Qmult (map (fun v => 1 - v) block) (np_roll1 H W R block (- offset))).

(** Lines 68 to 83. *)
Definition random_half_block_mask (im_shape : list nat) (label : option Z)
  : M rng (tensor Q) :=
  label <- match label with
           | Some l => ret l
           | None => np_choice (2 * num_labels)
           end ;;
  match im_shape with
  | H :: W :: rest =>
      let R := numel rest in
      let block :=
        ground_truth_block H W R
          (_label_to_patch_pixels label block_width (block_width / 2)%Z) in
      offset <- lift (half_block_offset label) ;;
      ret (unsqueeze0 (mkTensor im_shape (half_block_cells H W R block offset)))
  | _ => lift (Raise (IndexError "too many indices for array"))
  end.

(** Lines 86 to 89. *)
Definition random_half_block_mask_batch (batch_size : nat) (im_shape : list nat)
  (labels : option (list (option Z))) : M rng (tensor Q) :=
  let labels :=
    match labels with
    | Some ls => ls
    | None => repeat None batch_size
    end in
  ms <- mapM (random_half_block_mask im_shape) labels ;;
  lift (stack ms).

End Program.

(* ================================================================== *)
(** * The driver's dispatch *)

Section Driver.

Context {E : Externals}.

(** Lines 132 to 138: the filter the driver builds for its own accuracy
    estimate; the mode is compared as it was typed. *)
Definition driver_filter (mode : string) : pool :=
  let filter_class :=
    if String.eqb mode "median" then MedianPool2d else AvgPool2d in
  mkPool filter_class block_width (block_width / 2)%Z.

(** The inpainter the driver ends up with; the two baselines are classes
    of [arch.Inpainting.Baseline], kept here by their constructor calls. *)
Inductive inpainter : Type :=
| Oracle (o : OracleInpainter)
| LocalMean (ndim : Z)
| Mean.

(** Lines 141 to 148. *)
Definition select_inpainter (gen_model_name mode : string) : result inpainter :=
  if String.eqb gen_model_name "OracleInpainter" then
    rbind (snd (__init__ mode)) (fun o => Ok (Oracle o))
  else if String.eqb gen_model_name "LocalMeanInpatinter" then
    Ok (LocalMean 1)
  else if String.eqb gen_model_name "MeanInpatinter" then
    Ok Mean
  else Raise (AssertionError "unsupported gen model name").

End Driver.

(* ================================================================== *)
(** * A runnable instance of the interface *)

(** A small geometry of the same proportions as the data set's (images
    of three and a half block widths, a square grid of labels) and
    deterministic samplers, so that the program can be evaluated. *)
Module Fixture.

(** A linear congruential generator. *)
Definition next (g : Z) : Z := ((g * 1103515245 + 12345) mod 2147483648)%Z.

(** A draw from a symmetric five-point distribution, in place of a normal
    draw. *)
Definition lcg_randn1 (g : Z) : Q * Z :=
  let g' := next g in ((((g' / 65536) mod 5 - 2) # 2)%Z, g').

(** A uniform draw among the thousandths from 0 to 0.999. *)
Definition uniform (g : Z) : Q * Z :=
  let g' := next g in ((((g' / 65536) mod 1000) # 1000)%Z, g').

(** Inversion of the cumulative weights. *)
Fixpoint invert_cdf (w : list Q) (u : Q) : nat :=
  match w with
  | [] => O
  | v :: w' =>
      match w' with
      | [] => O
      | _ => if Qle_bool v u then S (invert_cdf w' (u - v)) else O
      end
  end.

Definition cdf_multinomial1 (w : list Q) (g : Z) : nat * Z :=
  let '(u, g') := uniform g in (invert_cdf w (u * Qsum w), g').

(** The number of successes among [n] Bernoulli trials. *)
Fixpoint trials (n : nat) (p : Q) (g : Z) : Z * Z :=
  match n with
  | O => (0%Z, g)
  | S n' =>
      let '(u, g') := uniform g in
      let '(c, g'') := trials n' p g' in
      ((if Qle_bool p u then c else c + 1)%Z, g'')
  end.

Definition trial_binomial (n : Z) (p : Q) (g : Z) : Z * Z := trials (Z.to_nat n) p g.

Definition lcg_choice (n : Z) (g : Z) : Z * Z :=
  let g' := next g in (((g' / 65536) mod n)%Z, g').

(** The partial sums [1 + q/k (1 + q/(k+1) (...))] of the exponential
    series. *)
Fixpoint exp_series (terms : nat) (k : Z) (q : Q) : Q :=
  match terms with
  | O => 1
  | S n => Qred (1 + (q / inject_Z k) * exp_series n (k + 1) q)
  end.

Definition series_exp (q : Q) : Q :=
  if Qle_bool 0 q then exp_series 6 1 q else / exp_series 6 1 (- q).

(** The lower median, as [torch.median] returns it. *)
Definition median (w : list Q) : Q :=
  nth ((length w - 1) / 2) (rev (sort_desc w)) 0.

Definition fixture_block_width : Z := 2.
Definition fixture_num_labels : Z := 9.

Definition grid_patch_pixels (label width stride : Z) : Z * Z * Z * Z :=
  let r := (label / 3)%Z in
  let c := (label mod 3)%Z in
  (stride + r * stride, stride + r * stride + width,
   stride + c * stride, stride + c * stride + width)%Z.

(** A six by six image with one channel: [beta] on the patch of the
    label, zero elsewhere. *)
Definition patch_image (beta : tensor Q) (label : tensor Z) : tensor Q :=
  let b := nth 0 (data beta) 0 in
  let l := nth 0 (data label) 0%Z in
  let '(r0, r1, c0, c1) := grid_patch_pixels l fixture_block_width (fixture_block_width / 2) in
  mkTensor [1; 6; 6]%nat
    (init3 6 6 1 (fun i j _ =>
       if in_slice 6 r0 r1 i && in_slice 6 c0 c1 j then b else 0)).

#[global] Instance externals : Externals := {|
  rng := Z;
  randn1 := lcg_randn1;
  multinomial1 := cdf_multinomial1;
  binomial := trial_binomial;
  choice := lcg_choice;
  exp_ := series_exp;
  MedianPool2d_forward := pool2d median;
  block_width := fixture_block_width;
  num_labels := fixture_num_labels;
  noise_level := 1 # 10;
  _label_to_patch_pixels := grid_patch_pixels;
  generate_image := patch_image;
  uninitialized := fun _ => 0
|}.

(** A batch of shape [B; 1; 6; 6] from its images, each a list of rows. *)
Definition batch (imgs : list (list (list Q))) : tensor Q :=
  mkTensor [length imgs; 1; 6; 6]%nat (concat (map (@concat Q) imgs)).

Definition zeros6 : list (list Q) := repeat (repeat 0 6%nat) 6%nat.

(** The image of label 4 (the centre patch) at full intensity. *)
Definition centre6 : list (list Q) :=
  [ [0; 0; 0; 0; 0; 0];
    [0; 0; 0; 0; 0; 0];
    [0; 0; 1; 1; 0; 0];
    [0; 0; 1; 1; 0; 0];
    [0; 0; 0; 0; 0; 0];
    [0; 0; 0; 0; 0; 0] ].

(** Two neighbouring patches (labels 3 and 4) at different intensities. *)
Definition pair6 : list (list Q) :=
  [ [0; 0; 0; 0; 0; 0];
    [0; 0; 0; 0; 0; 0];
    [0; 1; 1 # 2; 1 # 2; 0; 0];
    [0; 1; 1 # 2; 1 # 2; 0; 0];
    [0; 0; 0; 0; 0; 0];
    [0; 0; 0; 0; 0; 0] ].

(** The inpainter that [__init__ "avg"] builds. *)
Definition avg : OracleInpainter := mkOracleInpainter (mkPool AvgPool2d 2 1).

(** Two random states that differ and draw alike: the generator reduces
    its state modulo [2 ^ 31]. *)
Definition seed : @rng externals := 1%Z.
Definition seed' : @rng externals := 2147483649%Z.

(** The half-block mask of label 4. *)
Definition strips6 : list (list Q) :=
  [ [0; 0; 0; 0; 0; 0];
    [0; 0; 0; 0; 0; 0];
    [0; 0; 1; 0; 1; 0];
    [0; 0; 1; 0; 1; 0];
    [0; 0; 0; 0; 0; 0];
    [0; 0; 0; 0; 0; 0] ].

(** A mask that hides the two brightest pixels of [pair6]. *)
Definition hide6 : list (list Q) :=
  [ [0; 0; 0; 0; 0; 0];
    [0; 0; 0; 0; 0; 0];
    [0; 1; 0; 0; 0; 0];
    [0; 1; 0; 0; 0; 0];
    [0; 0; 0; 0; 0; 0];
    [0; 0; 0; 0; 0; 0] ].

(** The same interface with a block width of 1, for which half of the
    labels have an offset of zero. *)
Definition narrow : Externals := {|
  rng := Z;
  randn1 := lcg_randn1;
  multinomial1 := cdf_multinomial1;
  binomial := trial_binomial;
  choice := lcg_choice;
  exp_ := series_exp;
  MedianPool2d_forward := pool2d median;
  block_width := 1;
  num_labels := fixture_num_labels;
  noise_level := 1 # 10;
  _label_to_patch_pixels := grid_patch_pixels;
  generate_image := patch_image;
  uninitialized := fun _ => 0
|}.

(** An all-zero tensor of a given shape. *)
Definition zeros (s : list nat) : tensor Q := mkTensor s (repeat 0 (numel s)).

End Fixture.

(* ================================================================== *)
(** * Notions used to state the properties *)

Unset Implicit Arguments.

Definition value {S A : Type} (r : result (A * S)) : result A :=
  match r with
  | inl e => inl e
  | inr (a, _) => inr a
  end.

(** A computation whose outcome does not depend on the random state. *)
Definition oblivious {S A : Type} (m : M S A) : Prop :=
  forall g g' : S, value (m g) = value (m g').

(** Rows [top, bottom) by columns [left, right). *)
Record rect : Type := mkRect { top : Z; bottom : Z; left : Z; right : Z }.

Definition in_rect (r : rect) (i j : Z) : bool :=
  ((top r <=? i) && (i <? bottom r) && (left r <=? j) && (j <? right r))%Z.

Definition area (r : rect) : Z := ((bottom r - top r) * (right r - left r))%Z.

(** The rectangle moved [d] columns to the right. *)
Definition shift_cols (r : rect) (d : Z) : rect :=
  mkRect (top r) (bottom r) (left r + d) (right r + d).

(** The cell in row [i] and column [j] of a mask of shape [1; H; W]. *)
Definition cell2 (W : nat) (t : tensor Q) (i j : nat) : Q :=
  nth (i * W + j) (data t) 0.

(** The union of the patch shifted by the offset and the patch shifted by
    the negated offset, as the specification words the half-block mask. *)
Definition union_of_shifts_spec (patch : rect) (offset : Z) (i j : Z) : Q :=
  if in_rect (shift_cols patch offset) i j
     || in_rect (shift_cols patch (- offset)) i j
  then 1 else 0.

(** The part of the patch that its copy shifted by the offset covers,
    together with the part outside the patch that the copy shifted by the
    negated offset covers. *)
Definition half_strips (patch : rect) (offset : Z) (i j : Z) : Q :=
  if (in_rect patch i j && in_rect (shift_cols patch offset) i j)
     || (negb (in_rect patch i j) && in_rect (shift_cols patch (- offset)) i j)
  then 1 else 0.

Definition binary (v : Q) : Prop := v = 0 \/ v = 1.

(** [m] is the largest pixel of image [b] of the batch [x] of shape
    [B; 1; H; W]. *)
Definition is_max_pixel (x : tensor Q) (b H W : nat) (m : Q) : Prop :=
  (exists i j : nat, (i < H)%nat /\ (j < W)%nat /\ m = get4 x b 0 i j)
  /\ (forall i j : nat, (i < H)%nat -> (j < W)%nat -> get4 x b 0 i j <= m).

(** The cells of [x] where the mask is zero. *)
Definition visible_pixels (x mask : list Q) : list Q :=
  map fst (filter (fun xm => Qeq_bool (snd xm) 0) (combine x mask)).

(** Beta as the specification words it: the clamped maximum of the
    visible pixels of each image of [H * W] cells. *)
Definition beta_from_visible_spec (B H W : nat) (x mask : tensor Q) : list Q :=
  map (fun im =>
         clamp 0 1 (max_of (visible_pixels (fst im) (snd im))))
      (combine (chunks (H * W) B (data x)) (chunks (H * W) B (data mask))).

Definition desc (a b : Q) : Prop := b <= a.

(** [r] keeps the two highest values of [p], rescaled to sum to one, and
    is zero wherever [p] is at or below its third-highest value. *)
Definition top_two_of (p : list Q) (r : list fl) : Prop :=
  exists (a b c : Q) (rest : list Q),
    sort_desc p = a :: b :: c :: rest
    /\ length r = length p
    /\ (forall (i : nat) (v : Q),
          nth_error p i = Some v -> v <= c ->
          exists z : Q, nth_error r i = Some (Fin z) /\ z == 0)
    /\ (forall (i : nat) (v : Q),
          nth_error p i = Some v -> c < v ->
          exists z : Q, nth_error r i = Some (Fin z) /\ z == v / (a + b))
    /\ length (filter (fun v => negb (Qle_bool v c)) p) = 2%nat
    /\ (exists qs : list Q, r = map Fin qs /\ Qsum qs == 1).

(** A row of finite, non-negative probabilities that sum to one, at most
    two of them different from zero. *)
Definition distribution_on_two (r : list fl) : Prop :=
  exists qs : list Q,
    r = map Fin qs
    /\ Forall (fun q => 0 <= q) qs
    /\ Qsum qs == 1
    /\ (length (filter fl_nonzero r) <= 2)%nat.

(** A cell that [torch.multinomial] accepts as a weight. *)
Definition valid_weight (v : fl) : Prop := exists q : Q, v = Fin q /\ 0 <= q.


(* ================================================================== *)
(** * The instance satisfies the laws *)

Lemma exp_series_ge_1 (n : nat) :
  forall (k : Z) (q : Q), (1 <= k)%Z -> 0 <= q -> 1 <= Fixture.exp_series n k q.
Proof.
  induction n as [|n IH]; intros k q Hk Hq; cbn [Fixture.exp_series].
  - apply Qle_refl.
  - rewrite Qred_correct.
    assert (Hs : 1 <= Fixture.exp_series n (k + 1) q) by (apply IH; [lia | exact Hq]).
    assert (Hd : 0 <= q / inject_Z k).
    { apply Qle_shift_div_l.
      - change 0 with (inject_Z 0). rewrite <- Zlt_Qlt. lia.
      - rewrite Qmult_0_l. exact Hq. }
    assert (Hm : 0 <= (q / inject_Z k) * Fixture.exp_series n (k + 1) q).
    { apply Qmult_le_0_compat; [exact Hd | lra]. }
    lra.
Qed.

Lemma series_exp_pos (q : Q) : 0 < Fixture.series_exp q.
Proof.
  unfold Fixture.series_exp.
  destruct (Qle_bool 0 q) eqn:Hq.
  - apply Qle_bool_iff in Hq.
    pose proof (exp_series_ge_1 6 1 q ltac:(lia) Hq). lra.
  - assert (Hneg : 0 <= - q).
    { destruct (Qlt_le_dec q 0) as [Hlt|Hge].
      - lra.
      - apply Qle_bool_iff in Hge. congruence. }
    pose proof (exp_series_ge_1 6 1 (- q) ltac:(lia) Hneg) as H1.
    apply Qinv_lt_0_compat. lra.
Qed.

Lemma trials_range (n : nat) (p : Q) :
  forall g : Z, (0 <= fst (Fixture.trials n p g) <= Z.of_nat n)%Z.
Proof.
  induction n as [|n IH]; intro g.
  - simpl. lia.
  - cbn [Fixture.trials].
    destruct (Fixture.uniform g) as [u g'].
    specialize (IH g').
    destruct (Fixture.trials n p g') as [c g''].
    cbn [fst] in *.
    destruct (Qle_bool p u); cbn [fst]; lia.
Qed.

Lemma fixture_laws : ExternalsLaws Fixture.externals.
Proof.
  constructor.
  - exact series_exp_pos.
  - intros n p g Hn _ _. cbn.
    unfold Fixture.trial_binomial.
    pose proof (trials_range (Z.to_nat n) p g). lia.
Qed.

#[global] Existing Instance fixture_laws.

(* ================================================================== *)
(** * Facts about the monad and about lists *)

Lemma bind_lift {S A B : Type} (r : result A) (k : A -> M S B) (g : S) :
  bind (lift r) k g = match r with inl e => inl e | inr a => k a g end.
Proof. unfold bind, lift. destruct r; reflexivity. Qed.

Lemma bind_ret {S A B : Type} (a : A) (k : A -> M S B) (g : S) :
  bind (ret a) k g = k a g.
Proof. reflexivity. Qed.

Lemma replicateM_draw {S A : Type} (f : S -> A * S) (P : A -> Prop) :
  (forall g, P (fst (f g))) ->
  forall (n : nat) (g : S),
    exists l g', replicateM n (draw f) g = Ok (l, g')
                 /\ length l = n /\ Forall P l.
Proof.
  intros HP n. induction n as [|n IH]; intro g.
  - exists [], g. repeat split. constructor.
  - cbn [replicateM]. unfold bind at 1. unfold draw at 1. cbn.
    pose proof (HP g) as Hg.
    destruct (f g) as [a g1]. cbn [fst] in Hg.
    destruct (IH g1) as (l & g2 & Hrun & Hlen & Hall).
    unfold bind at 1. rewrite Hrun. cbn.
    exists (a :: l), g2. repeat split.
    + cbn. now rewrite Hlen.
    + now constructor.
Qed.

Lemma chunks_length {A : Type} (len n : nat) (l : list A) :
  length (chunks len n l) = n.
Proof.
  revert l. induction n as [|n IH]; intro l; cbn; [reflexivity|].
  now rewrite IH.
Qed.

Lemma rmapM_length {A B : Type} (f : A -> result B) (l : list A) (bs : list B) :
  rmapM f l = Ok bs -> length bs = length l.
Proof.
  revert bs. induction l as [|a l IH]; intros bs H; cbn in H.
  - injection H as <-. reflexivity.
  - destruct (f a) as [e|b]; cbn in H; [discriminate|].
    destruct (rmapM f l) as [e|bs']; cbn in H; [discriminate|].
    injection H as <-. cbn. now rewrite (IH bs' eq_refl).
Qed.

Lemma mapM_draw_length {S A B : Type} (f : A -> S -> B * S) (l : list A) :
  forall g : S,
    exists bs g', mapM (fun a => draw (f a)) l g = Ok (bs, g')
                  /\ length bs = length l.
Proof.
  induction l as [|a l IH]; intro g.
  - exists [], g. split; reflexivity.
  - cbn [mapM]. unfold bind at 1, draw at 1. cbn.
    destruct (f a g) as [b g1].
    destruct (IH g1) as (bs & g2 & Hrun & Hlen).
    unfold bind at 1. rewrite Hrun. cbn.
    exists (b :: bs), g2. split; [reflexivity|]. cbn. now rewrite Hlen.
Qed.

Lemma bind_ok_inv {S A B : Type} (m : M S A) (k : A -> M S B) (g g' : S) (b : B) :
  bind m k g = Ok (b, g') ->
  exists a g1, m g = Ok (a, g1) /\ k a g1 = Ok (b, g').
Proof.
  unfold bind. destruct (m g) as [e|[a g1]]; intro H; [discriminate|].
  now exists a, g1.
Qed.

Lemma lift_ok_inv {S A : Type} (r : result A) (g g' : S) (a : A) :
  lift r g = Ok (a, g') -> r = Ok a /\ g' = g.
Proof.
  unfold lift. destruct r as [e|a0]; intro H; [discriminate|].
  injection H as <- <-. split; reflexivity.
Qed.

Lemma bind_ok {S A B : Type} (m : M S A) (k : A -> M S B) (g g1 : S) (a : A) :
  m g = Ok (a, g1) -> bind m k g = k a g1.
Proof. intro H. unfold bind. now rewrite H. Qed.

Lemma bind_raise {S A B : Type} (m : M S A) (k : A -> M S B) (g : S) (e : exn) :
  m g = Raise e -> bind m k g = Raise e.
Proof. intro H. unfold bind. now rewrite H. Qed.

Lemma lift_ok {S A : Type} (r : result A) (a : A) (g : S) :
  r = Ok a -> lift r g = Ok (a, g).
Proof. intros ->. reflexivity. Qed.

Lemma lift_raise {S A : Type} (r : result A) (e : exn) (g : S) :
  r = Raise e -> @lift S A r g = Raise e.
Proof. intros ->. reflexivity. Qed.

Lemma oblivious_lift {S A : Type} (r : result A) : oblivious (@lift S A r).
Proof. intros g g'. unfold lift. destruct r; reflexivity. Qed.

Lemma oblivious_ret {S A : Type} (a : A) : oblivious (@ret S A a).
Proof. intros g g'. reflexivity. Qed.

Lemma value_bind_cong {S A B : Type} (m : M S A) (k : A -> M S B) (g1 g2 : S) :
  value (m g1) = value (m g2) ->
  (forall a, oblivious (k a)) ->
  value (bind m k g1) = value (bind m k g2).
Proof.
  intros Hm Hk. unfold bind.
  destruct (m g1) as [e1|[a1 h1]], (m g2) as [e2|[a2 h2]]; cbn in Hm;
    try discriminate.
  - injection Hm as <-. reflexivity.
  - injection Hm as <-. apply Hk.
Qed.

Lemma oblivious_bind {S A B : Type} (m : M S A) (k : A -> M S B) :
  oblivious m -> (forall a, oblivious (k a)) -> oblivious (bind m k).
Proof. intros Hm Hk g g'. apply value_bind_cong; [apply Hm | exact Hk]. Qed.

Create HintDb oblivious.
#[local] Hint Resolve oblivious_lift oblivious_ret oblivious_bind : oblivious.

(* ================================================================== *)
(** * Properties of the program *)

Section Properties.

Context {E : Externals}.

(** ** The constructor *)

(** C7.  Constructing the inpainter with a mode whose lower-case form is
    not one of median, avg and average raises the assertion error
    "unsupported mode" right after the base-class initialisation: no
    filter has been built and nothing has been computed. *)
Theorem init_rejects_unsupported_mode (mode : string) :
  str_in (lower mode) supported_modes = false ->
  __init__ mode = ([SuperInit], Raise (AssertionError "unsupported mode")).
Proof.
  intro H. unfold __init__. rewrite H. reflexivity.
Qed.

(** ** The random mask *)

(** C4, as amended.  For a probability in [0, 1] and an image shape of
    at least one dimension, [random_mask] returns a mask whose shape is
    the image shape behind one leading dimension of size one, with one
    cell per image cell and every cell 0 or 1. *)
Theorem random_mask_shape_and_cells {L : ExternalsLaws E}
  (im_shape : list nat) (p : Q) (g : rng) :
  0 <= p -> p <= 1 -> im_shape <> [] ->
  exists t g',
    random_mask im_shape p g = Ok (t, g')
    /\ shape t = 1%nat :: im_shape
    /\ length (data t) = numel im_shape
    /\ Forall (fun v => v = 0 \/ v = 1) (data t).
Proof.
  intros H0 H1 Hdim. unfold random_mask.
  apply Qle_bool_iff in H0. apply Qle_bool_iff in H1. rewrite H0, H1. cbn [andb].
  destruct im_shape as [|d0 dims]; [congruence|].
  set (im_shape := d0 :: dims).
  assert (Hcell : forall g0, (fun z => z = 0%Z \/ z = 1%Z) (fst (binomial 1 p g0))).
  { intro g0.
    pose proof (@binomial_range E L 1 p g0 ltac:(lia)
                  (proj1 (Qle_bool_iff _ _) H0) (proj1 (Qle_bool_iff _ _) H1)).
    lia. }
  destruct (replicateM_draw (binomial 1 p) _ Hcell (numel im_shape) g)
    as (l & g' & Hrun & Hlen & Hall).
  unfold bind. rewrite Hrun. cbn.
  eexists _, g'. split; [reflexivity|]. cbn. repeat split.
  - now rewrite length_map.
  - apply Forall_map. revert Hall. apply Forall_impl.
    intros z [-> | ->]; [left | right]; reflexivity.
Qed.

(** ** Label inference *)

Lemma oblivious_after_noise (self : OracleInpainter) (x : tensor Q)
  (imshape : bool) (xm : tensor Q) :
  @oblivious rng _
    (logits <- (logits <- lift (filt_forward (filt self) xm) ;;
                lift (crop_border logits)) ;;
     lp <- (B <- lift (len x) ;;
            rows <- lift (view_rows B logits) ;;
            ret (logits, map softmax rows)) ;;
     rows <- lift (rmapM sparsify (snd lp)) ;;
     ret (mkTensor
            (if imshape then shape (fst lp)
             else [length rows; (numel (shape (fst lp)) / length rows)%nat])
            (concat rows))).
Proof. auto 10 with oblivious. Qed.

Lemma bind_assoc {S A B C : Type} (m : M S A) (k : A -> M S B) (h : B -> M S C)
  (g : S) :
  bind (bind m k) h g = bind m (fun a => bind (k a) h) g.
Proof.
  unfold bind. destruct (m g) as [e|[a g1]]; reflexivity.
Qed.

Lemma infer_label_probs_unfold (self : OracleInpainter) (x mask : tensor Q)
  (imshape : bool) (g : rng) :
  infer_label_probs self x mask imshape g =
  bind (masked_input x mask) (fun xm =>
     logits <- (logits <- lift (filt_forward (filt self) xm) ;;
                lift (crop_border logits)) ;;
     lp <- (B <- lift (len x) ;;
            rows <- lift (view_rows B logits) ;;
            ret (logits, map softmax rows)) ;;
     rows <- lift (rmapM sparsify (snd lp)) ;;
     ret (mkTensor
            (if imshape then shape (fst lp)
             else [length rows; (numel (shape (fst lp)) / length rows)%nat])
            (concat rows))) g.
Proof.
  unfold infer_label_probs, softmax_probs, label_logits.
  rewrite !bind_assoc. unfold bind.
  destruct (masked_input x mask g) as [e|[xm g1]]; [reflexivity|].
  destruct (lift (filt_forward (filt self) xm) g1) as [e|[lg g2]]; [reflexivity|].
  destruct (lift (crop_border lg) g2) as [e|[cr g3]]; [reflexivity|].
  destruct (lift (len x) g3) as [e|[B g4]]; [reflexivity|].
  destruct (lift (view_rows B cr) g4) as [e|[rows g5]]; reflexivity.
Qed.

(** C8.  Label inference started in two random states that yield the same
    noise draw for the mask's shape ends with the same outcome: the same
    label probabilities, or the same exception. *)
Theorem infer_label_probs_same_noise_same_result
  (self : OracleInpainter) (x mask : tensor Q) (imshape : bool) (g1 g2 : rng) :
  value (randn (shape mask) g1) = value (randn (shape mask) g2) ->
  value (infer_label_probs self x mask imshape g1)
  = value (infer_label_probs self x mask imshape g2).
Proof.
  intro Hnoise. rewrite !infer_label_probs_unfold.
  apply value_bind_cong; [|intro xm; apply oblivious_after_noise].
  unfold masked_input. rewrite !bind_lift.
  destruct (tmul (one_minus mask) x) as [e|visible]; [reflexivity|].
  apply value_bind_cong; [exact Hnoise|].
  intro noise. auto with oblivious.
Qed.

(** ** Singleton batches *)

Lemma view_rows_length (B : nat) (t : tensor Q) (rows : list (list Q)) :
  view_rows B t = Ok rows -> length rows = B.
Proof.
  unfold view_rows.
  destruct (B =? 0)%nat; [destruct (numel (shape t) =? 0)%nat; discriminate|].
  destruct (numel (shape t) mod B =? 0)%nat; [|discriminate].
  intro H. injection H as <-. apply chunks_length.
Qed.

Lemma infer_label_probs_rows (self : OracleInpainter) (x mask : tensor Q)
  (g g' : rng) (t : tensor fl) (B : nat) (rest : list nat) :
  infer_label_probs self x mask false g = Ok (t, g') ->
  shape x = B :: rest ->
  exists L : nat, shape t = [B; L].
Proof.
  intros Hrun Hx. rewrite infer_label_probs_unfold in Hrun.
  apply bind_ok_inv in Hrun as (xm & g1 & _ & Hrun).
  apply bind_ok_inv in Hrun as (logits & g2 & _ & Hrun).
  apply bind_ok_inv in Hrun as (lp & g3 & Hlp & Hrun).
  apply bind_ok_inv in Hrun as (rows & g4 & Hrows & Hrun).
  apply bind_ok_inv in Hlp as (B' & g5 & HB & Hlp).
  apply bind_ok_inv in Hlp as (rows0 & g6 & Hview & Hlp).
  apply lift_ok_inv in HB as [HB _].
  apply lift_ok_inv in Hview as [Hview _].
  apply lift_ok_inv in Hrows as [Hrows _].
  unfold len in HB. rewrite Hx in HB. injection HB as <-.
  injection Hlp as <- _. injection Hrun as <- _.
  cbn [snd fst shape] in *.
  apply rmapM_length in Hrows. rewrite length_map in Hrows.
  apply view_rows_length in Hview.
  rewrite Hrows, Hview. eexists. reflexivity.
Qed.

Lemma multinomial_shape (t : tensor fl) (B L : nat) (g g' : rng) (s : tensor Z) :
  shape t = [B; L] ->
  multinomial t g = Ok (s, g') ->
  shape s = [B; 1%nat].
Proof.
  intros Ht Hrun. unfold multinomial in Hrun. rewrite Ht in Hrun.
  apply bind_ok_inv in Hrun as (ws & g1 & _ & Hrun).
  apply bind_ok_inv in Hrun as (l & g2 & _ & Hrun).
  injection Hrun as <- _. reflexivity.
Qed.

(** C9.  On a batch of exactly one image [generate_background] never
    returns: it raises, and so does [impute_missing_imgs] with the same
    exception.  Whenever label inference, the sampling of the label and
    the estimate of beta succeed, the exception is the type error of
    iterating the zero-dimensional array that squeezing the sampled
    labels of a singleton batch leaves. *)
Theorem generate_background_fails_on_singleton_batch
  (self : OracleInpainter) (x mask : tensor Q) (g : rng) (rest : list nat) :
  shape x = 1%nat :: rest ->
  (exists e : exn,
      generate_background self x mask g = Raise e
      /\ impute_missing_imgs self x mask g = Raise e)
  /\ (forall (lp : tensor fl) (g1 : rng) (s : tensor Z) (g2 : rng) (b : tensor Q),
        infer_label_probs self x mask false g = Ok (lp, g1) ->
        multinomial lp g1 = Ok (s, g2) ->
        estimate_betas x = Ok b ->
        generate_background self x mask g
        = Raise (TypeError "iteration over a 0-d array")).
Proof.
  intro Hx.
  assert (Hcause :
    forall lp g1 s g2 b,
      infer_label_probs self x mask false g = Ok (lp, g1) ->
      multinomial lp g1 = Ok (s, g2) ->
      estimate_betas x = Ok b ->
      generate_background self x mask g
      = Raise (TypeError "iteration over a 0-d array")).
  { intros lp g1 s g2 b Hlp Hs Hb.
    destruct (infer_label_probs_rows _ _ _ _ _ _ _ _ Hlp Hx) as [L HL].
    pose proof (multinomial_shape _ _ _ _ _ _ HL Hs) as Hshape.
    unfold generate_background.
    rewrite (bind_ok _ _ _ _ _ Hlp), (bind_ok _ _ _ _ _ Hs).
    rewrite (bind_ok _ _ _ _ _ (lift_ok _ _ g2 Hb)).
    apply bind_raise, lift_raise.
    unfold iter_array, squeeze. cbn [shape]. rewrite Hshape. reflexivity. }
  split; [|exact Hcause].
  assert (Hgen : exists e, generate_background self x mask g = Raise e).
  { destruct (infer_label_probs self x mask false g) as [e|[lp g1]] eqn:Hlp.
    - exists e. unfold generate_background. now apply bind_raise.
    - destruct (multinomial lp g1) as [e|[s g2]] eqn:Hs.
      + exists e. unfold generate_background.
        rewrite (bind_ok _ _ _ _ _ Hlp). now apply bind_raise.
      + destruct (estimate_betas x) as [e|b] eqn:Hb.
        * exists e. unfold generate_background.
          rewrite (bind_ok _ _ _ _ _ Hlp), (bind_ok _ _ _ _ _ Hs).
          now apply bind_raise, lift_raise.
        * eexists. exact (Hcause _ _ _ _ _ eq_refl Hs eq_refl). }
  destruct Hgen as [e He]. exists e. split; [exact He|].
  unfold impute_missing_imgs. now apply bind_raise.
Qed.

End Properties.

(** ** Arrays built cell by cell *)

Lemma zipWith_map {A B C D : Type} (g : B -> C -> D) (f1 : A -> B) (f2 : A -> C)
  (l : list A) :
  zipWith g (map f1 l) (map f2 l) = map (fun a => g (f1 a) (f2 a)) l.
Proof. induction l as [|a l IH]; cbn; [reflexivity | now rewrite IH]. Qed.

Lemma zipWith_app {A B C : Type} (g : A -> B -> C) (l1 l1' : list A) (l2 l2' : list B) :
  length l1 = length l2 ->
  zipWith g (l1 ++ l1') (l2 ++ l2') = zipWith g l1 l2 ++ zipWith g l1' l2'.
Proof.
  revert l2. induction l1 as [|a l1 IH]; intros [|b l2] H; cbn in *;
    try discriminate; [reflexivity|].
  f_equal. apply IH. now injection H.
Qed.

Lemma zipWith_flat_map {A B C D : Type} (g : B -> C -> D)
  (f1 : A -> list B) (f2 : A -> list C) (l : list A) :
  (forall a, length (f1 a) = length (f2 a)) ->
  zipWith g (flat_map f1 l) (flat_map f2 l)
  = flat_map (fun a => zipWith g (f1 a) (f2 a)) l.
Proof.
  intro Hlen. induction l as [|a l IH]; cbn; [reflexivity|].
  rewrite zipWith_app by apply Hlen. now rewrite IH.
Qed.

Lemma map_flat_map' {A B C : Type} (g : B -> C) (f : A -> list B) (l : list A) :
  map g (flat_map f l) = flat_map (fun a => map g (f a)) l.
Proof.
  induction l as [|a l IH]; cbn; [reflexivity|].
  now rewrite map_app, IH.
Qed.

Lemma init3_row_length (W R : nat) (f : nat -> nat -> Q) :
  length (flat_map (fun j => map (fun r => f j r) (seq 0 R)) (seq 0 W)) = (W * R)%nat.
Proof.
  generalize 0%nat at 2. induction W as [|W IH]; intro s; cbn; [reflexivity|].
  rewrite length_app, length_map, length_seq, IH. reflexivity.
Qed.

Lemma zipWith_init3 (g : Q -> Q -> Q) (H W R : nat) (f1 f2 : nat -> nat -> nat -> Q) :
  zipWith g (init3 H W R f1) (init3 H W R f2)
  = init3 H W R (fun i j r => g (f1 i j r) (f2 i j r)).
Proof.
  unfold init3. rewrite zipWith_flat_map.
  - apply flat_map_ext. intro i. rewrite zipWith_flat_map.
    + apply flat_map_ext. intro j. apply zipWith_map.
    + intro j. now rewrite !length_map.
  - intro i. now rewrite !init3_row_length.
Qed.

Lemma map_init3 (g : Q -> Q) (H W R : nat) (f : nat -> nat -> nat -> Q) :
  map g (init3 H W R f) = init3 H W R (fun i j r => g (f i j r)).
Proof.
  unfold init3. rewrite map_flat_map'. apply flat_map_ext. intro i.
  rewrite map_flat_map'. apply flat_map_ext. intro j. apply map_map.
Qed.

Lemma Forall_init3 (P : Q -> Prop) (H W R : nat) (f : nat -> nat -> nat -> Q) :
  (forall i j r, P (f i j r)) -> Forall P (init3 H W R f).
Proof.
  intro HP. unfold init3.
  apply Forall_flat_map, Forall_forall. intros i _.
  apply Forall_flat_map, Forall_forall. intros j _.
  apply Forall_map, Forall_forall. intros r _. apply HP.
Qed.

Lemma length_init3 (H W R : nat) (f : nat -> nat -> nat -> Q) :
  length (init3 H W R f) = (H * (W * R))%nat.
Proof.
  unfold init3. generalize 0%nat at 3. induction H as [|H IH]; intro s; cbn; [reflexivity|].
  rewrite length_app, init3_row_length, IH. reflexivity.
Qed.

Lemma nth_flat_map_seq {A : Type} (f : nat -> list A) (len : nat) (d : A) :
  (forall i, length (f i) = len) ->
  forall (n s i k : nat),
    (i < n)%nat -> (k < len)%nat ->
    nth (i * len + k) (flat_map f (seq s n)) d = nth k (f (s + i)%nat) d.
Proof.
  intro Hlen. induction n as [|n IH]; intros s i k Hi Hk; [lia|].
  cbn [seq flat_map]. destruct i as [|i].
  - cbn [Nat.mul Nat.add]. rewrite app_nth1 by (rewrite Hlen; exact Hk).
    now rewrite Nat.add_0_r.
  - rewrite app_nth2 by (rewrite Hlen; cbn; lia).
    rewrite Hlen. replace (S i * len + k - len)%nat with (i * len + k)%nat by (cbn; lia).
    rewrite IH by lia. f_equal. f_equal. lia.
Qed.

Lemma get3_init3 (H W R : nat) (f : nat -> nat -> nat -> Q) (i j r : nat) :
  (i < H)%nat -> (j < W)%nat -> (r < R)%nat ->
  get3 W R (init3 H W R f) i j r = f i j r.
Proof.
  intros Hi Hj Hr. unfold get3, init3.
  replace ((i * W + j) * R + r)%nat with (i * (W * R) + (j * R + r))%nat by lia.
  rewrite (nth_flat_map_seq _ (W * R)%nat); [| intro; apply init3_row_length | exact Hi | nia].
  cbn [Nat.add].
  rewrite (nth_flat_map_seq _ R); [| intro; now rewrite length_map, length_seq | exact Hj | exact Hr].
  cbn [Nat.add].
  rewrite (nth_indep _ 0 (f i j 0%nat)) by (rewrite length_map, length_seq; exact Hr).
  rewrite (map_nth (fun r0 => f i j r0)). now rewrite seq_nth.
Qed.

Section HalfBlock.

Context {E : Externals}.

Lemma half_block_cell_binary (b r1 r2 : Q) :
  binary b -> binary r1 -> binary r2 ->
  binary (b * r1 + (1 - b) * r2) /\ (b * r1 = 0 \/ (1 - b) * r2 = 0).
Proof.
  intros [-> | ->] [-> | ->] [-> | ->]; split;
    first [ left; reflexivity | right; reflexivity ].
Qed.

Lemma ground_truth_block_cell (H W R : nat) (patch : Z * Z * Z * Z) (i j r : nat) :
  binary (get3 W R (ground_truth_block H W R patch) i j r).
Proof.
  unfold get3.
  destruct (Nat.lt_ge_cases ((i * W + j) * R + r)
              (length (ground_truth_block H W R patch))) as [Hlt|Hge].
  - apply (proj1 (Forall_forall binary (ground_truth_block H W R patch)));
      [| now apply nth_In].
    destruct patch as [[[r0 r1] c0] c1]. unfold ground_truth_block.
    apply Forall_init3. intros i' j' _.
    destruct (in_slice H r0 r1 i' && in_slice W c0 c1 j'); [right | left]; reflexivity.
  - rewrite nth_overflow by exact Hge. left; reflexivity.
Qed.

Lemma half_block_cells_init3 (H W R : nat) (fb : nat -> nat -> nat -> Q) (offset : Z) :
  half_block_cells H W R (init3 H W R fb) offset
  = init3 H W R (fun i j r =>
      fb i j r
      * get3 W R (init3 H W R fb) i
          (Z.to_nat ((Z.of_nat j - offset) mod Z.of_nat W)) r
      + (1 - fb i j r)
        * get3 W R (init3 H W R fb) i
            (Z.to_nat ((Z.of_nat j - - offset) mod Z.of_nat W)) r).
Proof.
  unfold half_block_cells, np_roll1.
  now rewrite map_init3, !zipWith_init3.
Qed.

Lemma half_block_cells_binary (H W R : nat) (patch : Z * Z * Z * Z) (offset : Z) :
  Forall binary (half_block_cells H W R (ground_truth_block H W R patch) offset).
Proof.
  pose proof (ground_truth_block_cell H W R patch) as Hcell.
  destruct patch as [[[r0 r1] c0] c1]. unfold ground_truth_block in *.
  rewrite half_block_cells_init3. apply Forall_init3. intros i j r.
  apply half_block_cell_binary; [| apply Hcell | apply Hcell].
  destruct (in_slice H r0 r1 i && in_slice W c0 c1 j); [right | left]; reflexivity.
Qed.

(** C10.  Every mask that [random_half_block_mask] returns has only the
    cell values 0 and 1; it does return one whenever there is at least
    one label and the image shape has two dimensions or more. *)
Theorem half_block_mask_cells_are_binary
  (im_shape : list nat) (label : option Z) (g : rng) :
  (forall (t : tensor Q) (g' : rng),
      random_half_block_mask im_shape label g = Ok (t, g') ->
      Forall binary (data t))
  /\ ((1 <= num_labels)%Z -> (2 <= length im_shape)%nat ->
      exists (t : tensor Q) (g' : rng),
        random_half_block_mask im_shape label g = Ok (t, g')).
Proof.
  split.
  - intros t g' Hrun. unfold random_half_block_mask in Hrun.
    apply bind_ok_inv in Hrun as (l & g1 & _ & Hrun).
    destruct im_shape as [|H [|W rest]];
      try (apply lift_ok_inv in Hrun as [Hrun _]; discriminate).
    apply bind_ok_inv in Hrun as (offset & g2 & _ & Hrun).
    injection Hrun as <- _. cbn [data unsqueeze0].
    apply half_block_cells_binary.
  - intros Hn Hdim. destruct im_shape as [|H [|W rest]]; cbn in Hdim; try lia.
    assert (Hoff : forall l, exists off, half_block_offset l = Ok off).
    { intro l. unfold half_block_offset.
      destruct (Z.ltb_spec num_labels 0); [lia|].
      destruct (Z.eqb_spec (Z.sqrt num_labels) 0) as [Hk|Hk].
      - pose proof (Z.sqrt_le_mono 1 num_labels Hn) as Hs.
        change (Z.sqrt 1) with 1%Z in Hs. lia.
      - eexists. reflexivity. }
    assert (Hlabel : exists l g1,
      match label with
      | Some l => ret l
      | None => np_choice (2 * num_labels)
      end g = Ok (l, g1)).
    { destruct label as [l|].
      - exists l, g. reflexivity.
      - unfold np_choice. destruct (Z.leb_spec (2 * num_labels) 0); [lia|].
        unfold draw. destruct (choice (2 * num_labels) g) as [l g1].
        exists l, g1. reflexivity. }
    destruct Hlabel as (l & g1 & Hl). destruct (Hoff l) as [off Hoffl].
    unfold random_half_block_mask.
    rewrite (bind_ok _ _ _ _ _ Hl).
    rewrite (bind_ok _ _ _ _ _ (lift_ok _ _ g1 Hoffl)).
    eexists _, g1. reflexivity.
Qed.

Lemma slice_bound_inside (n : nat) (a : Z) :
  (0 <= a <= Z.of_nat n)%Z -> slice_bound n a = a.
Proof.
  intro Ha. unfold slice_bound. destruct (Z.ltb_spec a 0); lia.
Qed.

Lemma in_slice_inside (n : nat) (a b : Z) (i : nat) :
  (0 <= a <= Z.of_nat n)%Z -> (0 <= b <= Z.of_nat n)%Z ->
  in_slice n a b i = ((a <=? Z.of_nat i) && (Z.of_nat i <? b))%Z.
Proof.
  intros Ha Hb. unfold in_slice. now rewrite !slice_bound_inside.
Qed.

(** A column rolled within the margins either stays a column of the
    image or wraps around to a column outside the patch. *)
Lemma rolled_column (W : nat) (c0 c1 d : Z) (j : nat) :
  (Z.abs d <= c0)%Z -> (c0 <= c1)%Z -> (c1 + Z.abs d <= Z.of_nat W)%Z ->
  (j < W)%nat ->
  let j' := Z.to_nat ((Z.of_nat j - d) mod Z.of_nat W) in
  (j' < W)%nat
  /\ ((c0 <=? Z.of_nat j') && (Z.of_nat j' <? c1))%Z
     = ((c0 <=? Z.of_nat j - d) && (Z.of_nat j - d <? c1))%Z.
Proof.
  intros Hd Hc Hw Hj j'.
  assert (HW : (0 < Z.of_nat W)%Z) by lia.
  pose proof (Z.mod_pos_bound (Z.of_nat j - d) (Z.of_nat W) HW) as Hm.
  pose proof (Z.div_mod (Z.of_nat j - d) (Z.of_nat W) ltac:(lia)) as Hdm.
  set (q := ((Z.of_nat j - d) / Z.of_nat W)%Z) in *.
  set (m := ((Z.of_nat j - d) mod Z.of_nat W)%Z) in *.
  assert (Hq : (q = -1 \/ q = 0 \/ q = 1)%Z) by nia.
  assert (Hj' : Z.of_nat j' = m) by (unfold j'; lia).
  split; [lia|]. rewrite Hj'.
  destruct Hq as [-> | [-> | ->]];
    destruct (Z.leb_spec c0 m), (Z.ltb_spec m c1),
      (Z.leb_spec c0 (Z.of_nat j - d)), (Z.ltb_spec (Z.of_nat j - d) c1);
    cbn; try reflexivity; lia.
Qed.

Lemma half_block_cell_value (a b c : bool) :
  (if a then 0 + 1 else 0) * (if b then 0 + 1 else 0)
  + (1 - (if a then 0 + 1 else 0)) * (if c then 0 + 1 else 0)
  = if (a && b) || (negb a && c) then 1 else 0.
Proof. destruct a, b, c; reflexivity. Qed.

Lemma half_block_cell_formula (H W : nat) (r0 r1 c0 c1 offset : Z) (i j : nat) :
  (0 <= r0 <= r1)%Z -> (r1 <= Z.of_nat H)%Z ->
  (Z.abs offset <= c0)%Z -> (c0 <= c1)%Z -> (c1 + Z.abs offset <= Z.of_nat W)%Z ->
  (i < H)%nat -> (j < W)%nat ->
  get3 W 1 (half_block_cells H W 1 (ground_truth_block H W 1 (r0, r1, c0, c1)) offset)
    i j 0
  = half_strips (mkRect r0 r1 c0 c1) offset (Z.of_nat i) (Z.of_nat j).
Proof.
  intros Hr Hr1 Hd Hc Hw Hi Hj.
  unfold ground_truth_block. rewrite half_block_cells_init3.
  rewrite get3_init3 by lia.
  destruct (rolled_column W c0 c1 offset j Hd Hc Hw Hj) as [Hlt1 Hroll1].
  destruct (rolled_column W c0 c1 (- offset) j) as [Hlt2 Hroll2];
    [rewrite Z.abs_opp; lia | lia | rewrite Z.abs_opp; lia | lia |].
  rewrite !get3_init3 by lia.
  rewrite !(in_slice_inside H r0 r1) by lia.
  rewrite !(in_slice_inside W c0 c1) by lia.
  rewrite <- !andb_assoc, Hroll1, Hroll2, !andb_assoc.
  rewrite half_block_cell_value.
  unfold half_strips, in_rect, shift_cols. cbn [top bottom left right].
  match goal with
  | |- (if ?p then _ else _) = (if ?q then _ else _) =>
      replace p with q; [reflexivity|]
  end.
  apply eq_true_iff_eq.
  rewrite !orb_true_iff, !andb_true_iff, !negb_true_iff, !andb_false_iff,
    !Z.leb_le, !Z.ltb_lt, !Z.leb_gt, !Z.ltb_ge.
  lia.
Qed.

(** C6, as amended.  For a label whose patch is not empty, lies inside
    the image with a margin of the offset's size to its left and right,
    and is wider than the offset, which is not zero, [random_half_block_mask]
    returns the mask of shape [1; H; W] whose set pixels are the part of
    the patch covered by the patch shifted by the offset, together with
    the part outside the patch covered by the patch shifted by the negated
    offset.  Its set pixels lie in the two shifted patches, rectangles of
    the patch's area each, and it is neither all zero nor all one. *)
Theorem half_block_mask_is_two_half_strips
  (H W : nat) (label : Z) (g : rng) (r0 r1 c0 c1 offset : Z) :
  _label_to_patch_pixels label block_width (block_width / 2) = (r0, r1, c0, c1) ->
  half_block_offset label = Ok offset ->
  (0 <= r0 < r1)%Z -> (r1 <= Z.of_nat H)%Z ->
  (Z.abs offset <= c0)%Z -> (c1 + Z.abs offset <= Z.of_nat W)%Z ->
  (0 < Z.abs offset < c1 - c0)%Z ->
  exists t : tensor Q,
    random_half_block_mask [H; W] (Some label) g = Ok (t, g)
    /\ shape t = [1; H; W]%nat
    /\ (forall i j : nat, (i < H)%nat -> (j < W)%nat ->
          cell2 W t i j
          = half_strips (mkRect r0 r1 c0 c1) offset (Z.of_nat i) (Z.of_nat j))
    /\ (forall i j : nat, (i < H)%nat -> (j < W)%nat ->
          cell2 W t i j <> 0 ->
          in_rect (shift_cols (mkRect r0 r1 c0 c1) offset) (Z.of_nat i) (Z.of_nat j)
          || in_rect (shift_cols (mkRect r0 r1 c0 c1) (- offset))
               (Z.of_nat i) (Z.of_nat j) = true)
    /\ area (shift_cols (mkRect r0 r1 c0 c1) offset) = area (mkRect r0 r1 c0 c1)
    /\ area (shift_cols (mkRect r0 r1 c0 c1) (- offset)) = area (mkRect r0 r1 c0 c1)
    /\ (exists i j : nat, (i < H)%nat /\ (j < W)%nat /\ cell2 W t i j = 1)
    /\ (exists i j : nat, (i < H)%nat /\ (j < W)%nat /\ cell2 W t i j = 0).
Proof.
  intros Hpatch Hoff Hr Hr1 Hd Hw Hwide.
  eexists. split.
  { unfold random_half_block_mask. rewrite bind_ret.
    rewrite (bind_ok _ _ _ _ _ (lift_ok _ _ g Hoff)). reflexivity. }
  rewrite Hpatch. cbn [numel fold_right].
  assert (Hcell : forall i j : nat, (i < H)%nat -> (j < W)%nat ->
    cell2 W
      (unsqueeze0
         (mkTensor [H; W]
            (half_block_cells H W 1 (ground_truth_block H W 1 (r0, r1, c0, c1)) offset)))
      i j
    = half_strips (mkRect r0 r1 c0 c1) offset (Z.of_nat i) (Z.of_nat j)).
  { intros i j Hi Hj.
    rewrite <- (half_block_cell_formula H W r0 r1 c0 c1 offset i j) by lia.
    unfold cell2, get3. cbn [data unsqueeze0]. f_equal. lia. }
  split; [reflexivity|]. split; [exact Hcell|]. split.
  { intros i j Hi Hj Hset. rewrite Hcell in Hset by assumption.
    unfold half_strips in Hset.
    destruct (in_rect (mkRect r0 r1 c0 c1) (Z.of_nat i) (Z.of_nat j)),
      (in_rect (shift_cols (mkRect r0 r1 c0 c1) offset) (Z.of_nat i) (Z.of_nat j)),
      (in_rect (shift_cols (mkRect r0 r1 c0 c1) (- offset)) (Z.of_nat i) (Z.of_nat j));
      cbn in *; congruence. }
  split; [unfold area, shift_cols; cbn; lia|].
  split; [unfold area, shift_cols; cbn; lia|].
  assert (Hrow : (Z.to_nat r0 < H)%nat) by lia.
  split.
  - (* a set pixel in the first row of the patch *)
    exists (Z.to_nat r0), (Z.to_nat (if (offset <? 0)%Z then c0 else c0 + offset)).
    assert (Hcol : (Z.to_nat (if (offset <? 0)%Z then c0 else c0 + offset) < W)%nat)
      by (destruct (Z.ltb_spec offset 0); lia).
    split; [exact Hrow|]. split; [exact Hcol|].
    rewrite Hcell by assumption.
    unfold half_strips, in_rect, shift_cols. cbn [top bottom left right].
    rewrite !Z2Nat.id by (destruct (Z.ltb_spec offset 0); lia).
    destruct (Z.ltb_spec offset 0);
    repeat match goal with
           | |- context [(?a <=? ?b)%Z] => destruct (Z.leb_spec a b)
           | |- context [(?a <? ?b)%Z] => destruct (Z.ltb_spec a b)
           end; cbn; try reflexivity; lia.
  - (* a clear pixel in the first row of the patch *)
    exists (Z.to_nat r0), (Z.to_nat (if (offset <? 0)%Z then c1 - 1 else c0)).
    assert (Hcol : (Z.to_nat (if (offset <? 0)%Z then c1 - 1 else c0) < W)%nat)
      by (destruct (Z.ltb_spec offset 0); lia).
    split; [exact Hrow|]. split; [exact Hcol|].
    rewrite Hcell by assumption.
    unfold half_strips, in_rect, shift_cols. cbn [top bottom left right].
    rewrite !Z2Nat.id by (destruct (Z.ltb_spec offset 0); lia).
    destruct (Z.ltb_spec offset 0);
    repeat match goal with
           | |- context [(?a <=? ?b)%Z] => destruct (Z.leb_spec a b)
           | |- context [(?a <? ?b)%Z] => destruct (Z.ltb_spec a b)
           end; cbn; try reflexivity; lia.
Qed.

End HalfBlock.

(** ** The estimate of beta *)

Lemma Qmax_cases (a b : Q) : (Qmax a b = a /\ b <= a) \/ (Qmax a b = b /\ a <= b).
Proof.
  unfold Qmax, GenericMinMax.gmax.
  destruct (a ?= b) eqn:Hc.
  - left. split; [reflexivity|]. apply Qeq_alt in Hc. rewrite Hc. apply Qle_refl.
  - right. split; [reflexivity|]. apply Qlt_alt in Hc. now apply Qlt_le_weak.
  - left. split; [reflexivity|]. apply Qgt_alt in Hc. now apply Qlt_le_weak.
Qed.

Lemma Qmax_list_spec (l : list Q) :
  forall d : Q,
    In (Qmax_list d l) (d :: l) /\ (forall v, In v (d :: l) -> v <= Qmax_list d l).
Proof.
  induction l as [|u l IH]; intro d; cbn [Qmax_list].
  - split; [now left|]. intros v [<-|[]]. apply Qle_refl.
  - destruct (Qmax_cases d u) as [[Hm Hu]|[Hm Hu]]; rewrite Hm.
    + destruct (IH d) as [Hin Hle]. split.
      * destruct Hin as [Heq|Hin]; [now left | right; now right].
      * intros v [<-|[<-|Hv]].
        -- apply Hle. now left.
        -- eapply Qle_trans; [exact Hu|]. apply Hle. now left.
        -- apply Hle. now right.
    + destruct (IH u) as [Hin Hle]. split.
      * right. exact Hin.
      * intros v [<-|Hv].
        -- eapply Qle_trans; [exact Hu|]. apply Hle. now left.
        -- apply Hle. exact Hv.
Qed.

Lemma nth_chunks {A : Type} (len : nat) (d : A) :
  forall (n r j : nat) (l : list A),
    (r < n)%nat -> (j < len)%nat ->
    nth j (nth r (chunks len n l) []) d = nth (r * len + j) l d.
Proof.
  induction n as [|n IH]; intros r j l Hr Hj; [lia|].
  cbn [chunks]. destruct r as [|r].
  - cbn [nth Nat.mul Nat.add].
    rewrite <- (firstn_skipn len l) at 2.
    destruct (Nat.lt_ge_cases j (length (firstn len l))) as [Hlt|Hge].
    + now rewrite app_nth1.
    + rewrite nth_overflow by exact Hge.
      rewrite length_firstn in Hge.
      rewrite nth_overflow; [reflexivity|].
      rewrite length_app, length_firstn, length_skipn. lia.
  - cbn [nth]. rewrite IH by lia.
    replace (S r * len + j)%nat with (len + (r * len + j))%nat by (cbn; lia).
    rewrite <- (firstn_skipn len l) at 2.
    destruct (Nat.le_gt_cases len (length l)) as [Hle|Hgt].
    + rewrite app_nth2; rewrite length_firstn, Nat.min_l by exact Hle; [|lia].
      f_equal. lia.
    + rewrite skipn_all2 by lia. rewrite app_nil_r.
      rewrite nth_overflow by (cbn; lia).
      rewrite nth_overflow; [reflexivity|]. rewrite length_firstn. lia.
Qed.

Lemma nth_chunks_length {A : Type} (len : nat) :
  forall (n r : nat) (l : list A),
    (r < n)%nat -> (n * len <= length l)%nat ->
    length (nth r (chunks len n l) []) = len.
Proof.
  induction n as [|n IH]; intros r l Hr Hl; [lia|].
  cbn [chunks]. destruct r as [|r]; cbn [nth].
  - rewrite length_firstn. cbn in Hl. lia.
  - apply IH; [lia|]. rewrite length_skipn. cbn in Hl. lia.
Qed.

Lemma max_of_spec (l : list Q) :
  l <> [] -> In (max_of l) l /\ (forall v, In v l -> v <= max_of l).
Proof.
  destruct l as [|d l]; [congruence|]. intros _. apply Qmax_list_spec.
Qed.

Section Betas.

Context {E : Externals}.

Lemma estimate_betas_4d (x : tensor Q) (B H W : nat) :
  shape x = [B; 1; H; W]%nat -> (0 < H)%nat -> (0 < W)%nat ->
  estimate_betas x
  = Ok (squeeze
          (mkTensor [B; 1]%nat
             (map (clamp 0 1)
                (map max_of
                   (chunks H B (map max_of (chunks W (B * H) (data x)))))))).
Proof.
  intros Hx HH HW. unfold estimate_betas, max_last. rewrite Hx. cbn [rev app].
  destruct W as [|W]; [lia|]. destruct H as [|H]; [lia|].
  cbn [rbind Ok tmap shape data rev app numel fold_right].
  replace (B * (1 * (S H * 1)))%nat with (B * S H)%nat by lia.
  replace (B * (1 * 1))%nat with B by lia.
  reflexivity.
Qed.

(** C5, as amended.  For a batch of shape [B; 1; H; W] the estimate of
    beta holds, for each image, the largest of all its pixel values
    clamped to [0, 1]; the mask takes no part in it, and the betas that
    [generate_background] hands to the image generator are these. *)
Theorem beta_is_clamped_max_of_all_pixels (x : tensor Q) (B H W : nat) :
  shape x = [B; 1; H; W]%nat -> wf_tensor x -> (0 < H)%nat -> (0 < W)%nat ->
  exists betas : tensor Q,
    estimate_betas x = Ok betas
    /\ length (data betas) = B
    /\ (B <> 1%nat -> shape betas = [B])
    /\ (forall b : nat, (b < B)%nat ->
          exists m : Q,
            is_max_pixel x b H W m /\ nth b (data betas) 0 = clamp 0 1 m)
    /\ (forall (self : OracleInpainter) (mask : tensor Q) (g g' : rng)
               (infill : tensor Q),
          generate_background self x mask g = Ok (infill, g') ->
          exists (labels : list (tensor Z)) (bs : list (tensor Q)),
            iter_array betas = Ok bs
            /\ stack (map (fun lb => generate_image (snd lb) (fst lb))
                        (combine labels bs)) = Ok infill).
Proof.
  intros Hx Hwf HH HW.
  rewrite (estimate_betas_4d x B H W Hx HH HW).
  eexists. split; [reflexivity|].
  unfold wf_tensor in Hwf. rewrite Hx in Hwf. cbn [numel fold_right] in Hwf.
  set (rows := chunks W (B * H) (data x)).
  set (maxes := map max_of rows).
  assert (Hmaxes : length maxes = (B * H)%nat)
    by (unfold maxes, rows; now rewrite length_map, chunks_length).
  cbn [squeeze data shape].
  split; [now rewrite !length_map, chunks_length|].
  split.
  { intro HB. cbn [filter]. destruct (Nat.eqb_spec B 1); [contradiction|]. reflexivity. }
  split.
  - intros b Hb.
    set (ch := nth b (chunks H B maxes) []).
    assert (Hch_len : length ch = H)
      by (apply nth_chunks_length; [exact Hb | lia]).
    assert (Hch : forall i, (i < H)%nat ->
              nth i ch 0 = max_of (nth (b * H + i) rows [])).
    { intros i Hi. unfold ch. rewrite nth_chunks by assumption.
      unfold maxes. rewrite (nth_indep _ 0 (max_of [])) by (rewrite length_map; unfold rows; rewrite chunks_length; nia).
      apply (map_nth max_of). }
    assert (Hrow_len : forall i, (i < H)%nat ->
              length (nth (b * H + i) rows []) = W).
    { intros i Hi. apply nth_chunks_length; nia. }
    assert (Hrow : forall i j, (i < H)%nat -> (j < W)%nat ->
              nth j (nth (b * H + i) rows []) 0 = get4 x b 0 i j).
    { intros i j Hi Hj. unfold rows. rewrite nth_chunks by (nia || assumption).
      unfold get4. rewrite Hx. f_equal. lia. }
    exists (max_of ch). split.
    + split.
      * destruct (max_of_spec ch) as [Hin _].
        { intro Hnil. rewrite Hnil in Hch_len. cbn in Hch_len. lia. }
        apply (In_nth _ _ 0) in Hin as (i & Hi & Hmi). rewrite Hch_len in Hi.
        rewrite Hch in Hmi by exact Hi.
        destruct (max_of_spec (nth (b * H + i) rows [])) as [Hin _].
        { intro Hnil. specialize (Hrow_len i Hi). rewrite Hnil in Hrow_len.
          cbn in Hrow_len. lia. }
        apply (In_nth _ _ 0) in Hin as (j & Hj & Hmj).
        rewrite Hrow_len in Hj by exact Hi.
        exists i, j. split; [exact Hi|]. split; [exact Hj|].
        rewrite <- Hmi, <- Hmj. now apply Hrow.
      * intros i j Hi Hj. rewrite <- (Hrow i j Hi Hj).
        apply Qle_trans with (y := nth i ch 0).
        -- rewrite Hch by exact Hi. apply max_of_spec.
           ++ intro Hnil. specialize (Hrow_len i Hi). rewrite Hnil in Hrow_len.
              cbn in Hrow_len. lia.
           ++ apply nth_In. now rewrite Hrow_len.
        -- apply max_of_spec.
           ++ intro Hnil. rewrite Hnil in Hch_len. cbn in Hch_len. lia.
           ++ apply nth_In. now rewrite Hch_len.
    + rewrite (nth_indep _ 0 (clamp 0 1 0))
        by (rewrite !length_map, chunks_length; exact Hb).
      rewrite (map_nth (clamp 0 1)).
      rewrite (nth_indep _ 0 (max_of []))
        by (rewrite length_map, chunks_length; exact Hb).
      now rewrite (map_nth max_of).
  - intros self mask g g' infill Hrun. unfold generate_background in Hrun.
    apply bind_ok_inv in Hrun as (lp & g1 & _ & Hrun).
    apply bind_ok_inv in Hrun as (s & g2 & _ & Hrun).
    apply bind_ok_inv in Hrun as (betas & g3 & Hb & Hrun).
    apply bind_ok_inv in Hrun as (labels & g4 & _ & Hrun).
    apply bind_ok_inv in Hrun as (bs & g5 & Hbs & Hrun).
    apply lift_ok_inv in Hb as [Hb _].
    apply lift_ok_inv in Hbs as [Hbs _].
    apply lift_ok_inv in Hrun as [Hrun _].
    rewrite (estimate_betas_4d x B H W Hx HH HW) in Hb. injection Hb as <-.
    exists labels, bs. split; assumption.
Qed.

End Betas.

(** ** Sorting *)

Lemma insert_desc_perm (v : Q) (l : list Q) : Permutation (insert_desc v l) (v :: l).
Proof.
  induction l as [|u l IH]; cbn.
  - apply Permutation_refl.
  - destruct (Qle_bool u v).
    + apply Permutation_refl.
    + apply perm_trans with (u :: v :: l).
      * now apply perm_skip.
      * apply perm_swap.
Qed.

Lemma sort_desc_perm (l : list Q) : Permutation (sort_desc l) l.
Proof.
  induction l as [|v l IH]; cbn.
  - apply perm_nil.
  - apply perm_trans with (v :: sort_desc l).
    + apply insert_desc_perm.
    + now apply perm_skip.
Qed.

Lemma insert_desc_sorted (v : Q) (l : list Q) :
  StronglySorted desc l -> StronglySorted desc (insert_desc v l).
Proof.
  induction l as [|u l IH]; intro Hs; cbn.
  - constructor; constructor.
  - destruct (Qle_bool u v) eqn:Huv.
    + apply Qle_bool_iff in Huv.
      constructor; [exact Hs|].
      constructor; [exact Huv|].
      inversion Hs as [|? ? _ Hall]; subst.
      revert Hall. apply Forall_impl. intros w Hw. unfold desc in *.
      eapply Qle_trans; eassumption.
    + assert (Hvu : v <= u).
      { destruct (Qlt_le_dec v u) as [Hlt|Hge]; [now apply Qlt_le_weak|].
        apply Qle_bool_iff in Hge. congruence. }
      inversion Hs as [|? ? Hs' Hall]; subst.
      constructor; [now apply IH|].
      eapply Permutation_Forall.
      * apply Permutation_sym, insert_desc_perm.
      * constructor; assumption.
Qed.

Lemma sort_desc_sorted (l : list Q) : StronglySorted desc (sort_desc l).
Proof.
  induction l as [|v l IH]; cbn.
  - constructor.
  - now apply insert_desc_sorted.
Qed.

Lemma Qsum_cons (v : Q) (l : list Q) : Qsum (v :: l) == v + Qsum l.
Proof. cbn [Qsum]. apply Qred_correct. Qed.

Lemma Qsum_perm (l l' : list Q) : Permutation l l' -> Qsum l == Qsum l'.
Proof.
  induction 1 as [|x l l' _ IH|x y l|l l' l'' _ IH1 _ IH2].
  - reflexivity.
  - now rewrite !Qsum_cons, IH.
  - rewrite !Qsum_cons. ring.
  - now rewrite IH1.
Qed.

Lemma filter_length_perm {A : Type} (f : A -> bool) (l l' : list A) :
  Permutation l l' -> length (filter f l) = length (filter f l').
Proof.
  induction 1 as [|x l l' _ IH|x y l|l l' l'' _ IH1 _ IH2]; cbn.
  - reflexivity.
  - destruct (f x); cbn; now rewrite IH.
  - destruct (f x), (f y); reflexivity.
  - now rewrite IH1.
Qed.

Lemma gt_float_above (v thr : Q) : thr < v -> gt_float v thr = 1.
Proof.
  intro H. unfold gt_float. destruct (Qle_bool v thr) eqn:Hle; [|reflexivity].
  apply Qle_bool_iff in Hle. lra.
Qed.

Lemma gt_float_below (v thr : Q) : v <= thr -> gt_float v thr = 0.
Proof.
  intro H. unfold gt_float. apply Qle_bool_iff in H. now rewrite H.
Qed.

Lemma Qsum_all_below (thr : Q) (l : list Q) :
  Forall (fun v => v <= thr) l ->
  Qsum (map (fun v => v * gt_float v thr) l) == 0.
Proof.
  induction 1 as [|v l Hv _ IH]; cbn [map].
  - reflexivity.
  - rewrite Qsum_cons, IH, (gt_float_below v thr Hv). ring.
Qed.

Lemma filter_all_below (thr : Q) (l : list Q) :
  Forall (fun v => v <= thr) l ->
  filter (fun v => negb (Qle_bool v thr)) l = [].
Proof.
  induction 1 as [|v l Hv _ IH]; cbn.
  - reflexivity.
  - apply Qle_bool_iff in Hv. now rewrite Hv, IH.
Qed.

Lemma Qsum_map_div (s : Q) (l : list Q) :
  Qsum (map (fun v => v / s) l) == Qsum l / s.
Proof.
  induction l as [|v l IH]; cbn [map].
  - cbn [Qsum]. unfold Qdiv. ring.
  - rewrite !Qsum_cons, IH. unfold Qdiv. ring.
Qed.

(** ** The top-two heuristic on one row *)

Lemma rmapM_Forall2 {A B : Type} (f : A -> result B) (R : A -> B -> Prop)
  (l : list A) :
  (forall a, In a l -> exists b, f a = Ok b /\ R a b) ->
  exists bs, rmapM f l = Ok bs /\ Forall2 R l bs.
Proof.
  induction l as [|a l IH]; intro H.
  - exists []. split; [reflexivity | constructor].
  - destruct (H a (or_introl eq_refl)) as (b & Hb & HR).
    destruct IH as (bs & Hbs & HF); [intros a' Ha'; apply H; now right|].
    exists (b :: bs). split; [| now constructor].
    cbn [rmapM]. rewrite Hb. cbn [rbind Ok]. rewrite Hbs. reflexivity.
Qed.

Lemma sparsify_keeps_top_two (p : list Q) (a b c : Q) (rest : list Q) :
  sort_desc p = a :: b :: c :: rest ->
  c < b ->
  (forall v, In v p -> 0 < v) ->
  exists r : list fl, sparsify p = Ok r /\ top_two_of p r.
Proof.
  intros Hsort Hcb Hpos.
  pose proof (sort_desc_perm p) as Hperm. rewrite Hsort in Hperm.
  pose proof (sort_desc_sorted p) as Hsorted. rewrite Hsort in Hsorted.
  inversion Hsorted as [|? ? Hs1 Ha]; subst.
  inversion Hs1 as [|? ? Hs2 Hb]; subst.
  inversion Hs2 as [|? ? _ Hc]; subst.
  inversion Ha as [|? ? Hba _]; subst. unfold desc in Hba.
  assert (Hrest : Forall (fun v => v <= c) rest) by exact Hc.
  assert (Ha0 : 0 < a) by (apply Hpos; eapply Permutation_in; [exact Hperm | now left]).
  assert (Hb0 : 0 < b)
    by (apply Hpos; eapply Permutation_in; [exact Hperm | right; now left]).
  set (f := fun v => v * gt_float v c).
  set (kept := map f p).
  assert (HS : Qsum kept == a + b).
  { unfold kept.
    rewrite (Qsum_perm (map f p) (map f (a :: b :: c :: rest)))
      by (apply Permutation_map, Permutation_sym, Hperm).
    cbn [map]. rewrite !Qsum_cons.
    unfold f at 4. rewrite (Qsum_all_below c rest Hrest).
    unfold f. rewrite (gt_float_above a c) by lra.
    rewrite (gt_float_above b c) by lra.
    rewrite (gt_float_below c c) by apply Qle_refl. ring. }
  assert (HS0 : Qeq_bool (Qsum kept) 0 = false).
  { destruct (Qeq_bool (Qsum kept) 0) eqn:Heq; [|reflexivity].
    apply Qeq_bool_iff in Heq. rewrite HS in Heq. lra. }
  assert (Hrun : sparsify p = Ok (map Fin (map (fun v => v / Qsum kept) kept))).
  { unfold sparsify, take_top_two, third_highest. rewrite Hsort.
    cbn [nth_error rbind Ok]. unfold renormalize. fold f. fold kept.
    rewrite map_map. f_equal. apply map_ext. intro v.
    unfold fdiv. now rewrite HS0. }
  exists (map Fin (map (fun v => v / Qsum kept) kept)). split; [exact Hrun|].
  exists a, b, c, rest. split; [exact Hsort|].
  split; [unfold kept; now rewrite !length_map|].
  assert (Hnth : forall i v, nth_error p i = Some v ->
            nth_error (map Fin (map (fun v => v / Qsum kept) kept)) i
            = Some (Fin (f v / Qsum kept))).
  { intros i v Hi. unfold kept. rewrite !nth_error_map, Hi. reflexivity. }
  split; [|split; [|split]].
  - intros i v Hi Hv. eexists. split; [apply Hnth, Hi|].
    unfold f. rewrite (gt_float_below v c Hv). rewrite HS. field. lra.
  - intros i v Hi Hv. eexists. split; [apply Hnth, Hi|].
    unfold f. rewrite (gt_float_above v c Hv). rewrite HS. field. lra.
  - rewrite (filter_length_perm _ p (a :: b :: c :: rest))
      by (apply Permutation_sym, Hperm).
    cbn [filter].
    assert (Hac : Qle_bool a c = false).
    { destruct (Qle_bool a c) eqn:Hle; [|reflexivity]. apply Qle_bool_iff in Hle. lra. }
    assert (Hbc : Qle_bool b c = false).
    { destruct (Qle_bool b c) eqn:Hle; [|reflexivity]. apply Qle_bool_iff in Hle. lra. }
    assert (Hcc : Qle_bool c c = true) by (apply Qle_bool_iff, Qle_refl).
    rewrite Hac, Hbc, Hcc. cbn [negb length].
    now rewrite (filter_all_below c rest Hrest).
  - eexists. split; [reflexivity|].
    rewrite Qsum_map_div. rewrite HS. field. lra.
Qed.

Section TopTwo.

Context {E : Externals} {L : ExternalsLaws E}.

Lemma Qsum_pos (l : list Q) : l <> [] -> Forall (fun v => 0 < v) l -> 0 < Qsum l.
Proof.
  intros Hne Hall. induction Hall as [|v l Hv Hall IH]; [congruence|].
  rewrite Qsum_cons.
  destruct l as [|u l].
  - cbn [Qsum]. lra.
  - assert (0 < Qsum (u :: l)) by (apply IH; congruence). lra.
Qed.

Lemma softmax_pos (row : list Q) (v : Q) : In v (softmax row) -> 0 < v.
Proof.
  unfold softmax. intro Hin.
  apply in_map_iff in Hin as (e & <- & He).
  assert (Hall : Forall (fun v => 0 < v) (map exp_ row)).
  { apply Forall_map, Forall_forall. intros q _. apply exp_pos. }
  assert (Hs : 0 < Qsum (map exp_ row)).
  { apply Qsum_pos; [|exact Hall]. intro Hnil. rewrite Hnil in He. destruct He. }
  apply Qlt_shift_div_l; [exact Hs|]. rewrite Qmult_0_l.
  apply (proj1 (Forall_forall _ _) Hall). exact He.
Qed.

(** C3, as amended.  The heuristic takes each image's third-highest
    softmax probability and zeroes every probability at or below it.
    Whenever the second-highest probability of every image is strictly
    above the third-highest, exactly the top two are kept, each divided by
    their sum, and the row sums to one. *)
Theorem top_two_kept_when_third_is_strictly_lower
  (self : OracleInpainter) (x mask : tensor Q) (g g' : rng)
  (logits : tensor Q) (probs : list (list Q)) :
  softmax_probs self x mask g = Ok ((logits, probs), g') ->
  (forall p, In p probs ->
     exists (a b c : Q) (rest : list Q), sort_desc p = a :: b :: c :: rest /\ c < b) ->
  exists (t : tensor fl) (rows : list (list fl)),
    infer_label_probs self x mask false g = Ok (t, g')
    /\ data t = concat rows
    /\ Forall2 top_two_of probs rows.
Proof.
  intros Hprobs Hgap.
  assert (Hpos : forall p, In p probs -> forall v, In v p -> 0 < v).
  { unfold softmax_probs in Hprobs.
    apply bind_ok_inv in Hprobs as (lg & g1 & _ & Hprobs).
    apply bind_ok_inv in Hprobs as (B & g2 & _ & Hprobs).
    apply bind_ok_inv in Hprobs as (rows0 & g3 & _ & Hprobs).
    injection Hprobs as _ <- _.
    intros p Hp v Hv. apply in_map_iff in Hp as (row & <- & _).
    now apply softmax_pos in Hv. }
  destruct (rmapM_Forall2 sparsify top_two_of probs) as (rows & Hrows & HF).
  { intros p Hp. destruct (Hgap p Hp) as (a & b & c & rest & Hsort & Hcb).
    apply (sparsify_keeps_top_two p a b c rest Hsort Hcb (Hpos p Hp)). }
  eexists _, rows. split.
  { unfold infer_label_probs.
    rewrite (bind_ok _ _ _ _ _ Hprobs). cbn [snd fst].
    rewrite (bind_ok _ _ _ _ _ (lift_ok _ _ g' Hrows)). reflexivity. }
  split; [reflexivity | exact HF].
Qed.

End TopTwo.

(** ** The composite and the distribution, as the code has them *)

Lemma shape_eqb_refl (s : list nat) : shape_eqb s s = true.
Proof. unfold shape_eqb. destruct (list_eq_dec Nat.eq_dec s s); congruence. Qed.

Lemma tzip_same_shape (f : Q -> Q -> Q) (a b : tensor Q) :
  shape a = shape b ->
  tzip f a b = Ok (mkTensor (shape a) (zipWith f (data a) (data b))).
Proof. intro H. unfold tzip. now rewrite H, shape_eqb_refl. Qed.

Lemma nth_zipWith {A B C : Type} (f : A -> B -> C) (da : A) (db : B) (dc : C) :
  forall (l1 : list A) (l2 : list B) (k : nat),
    (k < length l1)%nat -> (k < length l2)%nat ->
    nth k (zipWith f l1 l2) dc = f (nth k l1 da) (nth k l2 db).
Proof.
  induction l1 as [|a l1 IH]; intros [|b l2] k H1 H2; cbn in *; try lia.
  destruct k as [|k]; [reflexivity|]. apply IH; lia.
Qed.

Lemma length_zipWith {A B C : Type} (f : A -> B -> C) :
  forall (l1 : list A) (l2 : list B),
    length (zipWith f l1 l2) = Nat.min (length l1) (length l2).
Proof.
  induction l1 as [|a l1 IH]; intros [|b l2]; cbn; [reflexivity..|].
  now rewrite IH.
Qed.

Section Composite.

Context {E : Externals}.

(** The composite of line 26 as the code computes it: where the mask is
    1 the output is the input, and where the mask is 0 the output is the
    synthesised background. *)
Theorem impute_keeps_input_where_mask_is_one
  (self : OracleInpainter) (x mask bg : tensor Q) (g g1 : rng) (n : nat) :
  generate_background self x mask g = Ok (bg, g1) ->
  shape mask = shape x -> shape bg = shape x ->
  length (data x) = n -> length (data mask) = n -> length (data bg) = n ->
  exists out : tensor Q,
    impute_missing_imgs self x mask g = Ok (out, g1)
    /\ shape out = shape x
    /\ forall k : nat, (k < n)%nat ->
         (nth k (data mask) 0 == 1 -> nth k (data out) 0 == nth k (data x) 0)
         /\ (nth k (data mask) 0 == 0 -> nth k (data out) 0 == nth k (data bg) 0).
Proof.
  intros Hbg Hm Hb Hlx Hlm Hlb.
  unfold impute_missing_imgs. rewrite (bind_ok _ _ _ _ _ Hbg). cbv beta.
  unfold tmul, tadd.
  eexists. split.
  { rewrite (bind_ok _ _ _ _ _
               (lift_ok _ _ g1 (tzip_same_shape Qmult x mask (eq_sym Hm)))).
    cbv beta.
    rewrite (bind_ok _ _ _ _ _
               (lift_ok _ _ g1 (tzip_same_shape Qmult bg (one_minus mask)
                                  (eq_trans Hb (eq_sym Hm))))).
    cbv beta.
    apply lift_ok, tzip_same_shape. cbn [shape]. congruence. }
  split; [reflexivity|].
  intros k Hk. cbn [data one_minus tmap].
  rewrite (nth_zipWith Qplus 0 0 0)
    by (rewrite length_zipWith, ?length_map; lia).
  rewrite !(nth_zipWith Qmult 0 0 0) by (rewrite ?length_map; lia).
  rewrite (nth_indep (map (fun v => 1 - v) (data mask)) 0 (1 - 0))
    by (rewrite length_map; lia).
  rewrite (map_nth (fun v => 1 - v)).
  split; intro Hmask; rewrite Hmask; ring.
Qed.

End Composite.

Lemma filter_length_le {A B : Type} (g : B -> bool) (g' : A -> bool) (h : A -> B)
  (l : list A) :
  (forall a, g (h a) = true -> g' a = true) ->
  (length (filter g (map h l)) <= length (filter g' l))%nat.
Proof.
  intro Himp. induction l as [|a l IH]; cbn; [lia|].
  destruct (g (h a)) eqn:Hg.
  - rewrite (Himp a Hg). cbn. lia.
  - destruct (g' a); cbn; lia.
Qed.

Lemma gt_float_cases (v thr : Q) : gt_float v thr = 0 \/ gt_float v thr = 1.
Proof. unfold gt_float. destruct (Qle_bool v thr); [left | right]; reflexivity. Qed.

Lemma sparsify_is_distribution (p : list Q) (a b c : Q) (rest : list Q) :
  sort_desc p = a :: b :: c :: rest ->
  c < a ->
  (forall v, In v p -> 0 < v) ->
  exists r : list fl, sparsify p = Ok r /\ distribution_on_two r.
Proof.
  intros Hsort Hca Hpos.
  pose proof (sort_desc_perm p) as Hperm. rewrite Hsort in Hperm.
  pose proof (sort_desc_sorted p) as Hsorted. rewrite Hsort in Hsorted.
  inversion Hsorted as [|? ? Hs1 _]; subst.
  inversion Hs1 as [|? ? Hs2 _]; subst.
  inversion Hs2 as [|? ? _ Hc]; subst.
  assert (Hrest : Forall (fun v => v <= c) rest) by exact Hc.
  assert (Ha0 : 0 < a) by (apply Hpos; eapply Permutation_in; [exact Hperm | now left]).
  assert (Hb0 : 0 < b)
    by (apply Hpos; eapply Permutation_in; [exact Hperm | right; now left]).
  set (f := fun v => v * gt_float v c).
  set (kept := map f p).
  assert (Hf0 : forall v, 0 < v -> 0 <= f v).
  { intros v Hv. unfold f. destruct (gt_float_cases v c) as [-> | ->]; lra. }
  assert (HS : Qsum kept == a + f b).
  { unfold kept.
    rewrite (Qsum_perm (map f p) (map f (a :: b :: c :: rest)))
      by (apply Permutation_map, Permutation_sym, Hperm).
    cbn [map]. rewrite !Qsum_cons.
    unfold f at 4. rewrite (Qsum_all_below c rest Hrest).
    unfold f at 1 3. rewrite (gt_float_above a c) by lra.
    rewrite (gt_float_below c c) by apply Qle_refl. ring. }
  assert (HSpos : 0 < Qsum kept) by (rewrite HS; specialize (Hf0 b Hb0); lra).
  assert (HS0 : Qeq_bool (Qsum kept) 0 = false).
  { destruct (Qeq_bool (Qsum kept) 0) eqn:Heq; [|reflexivity].
    apply Qeq_bool_iff in Heq. lra. }
  assert (Hrun : sparsify p = Ok (map Fin (map (fun v => v / Qsum kept) kept))).
  { unfold sparsify, take_top_two, third_highest. rewrite Hsort.
    cbn [nth_error rbind Ok]. unfold renormalize. fold f. fold kept.
    rewrite map_map. f_equal. apply map_ext. intro v.
    unfold fdiv. now rewrite HS0. }
  exists (map Fin (map (fun v => v / Qsum kept) kept)). split; [exact Hrun|].
  exists (map (fun v => v / Qsum kept) kept). split; [reflexivity|].
  split; [|split].
  - unfold kept. rewrite map_map. apply Forall_map, Forall_forall.
    intros v Hv. apply Qle_shift_div_l; [exact HSpos|].
    rewrite Qmult_0_l. apply Hf0, Hpos, Hv.
  - rewrite Qsum_map_div. field. lra.
  - unfold kept. rewrite !map_map.
    eapply Nat.le_trans.
    + apply (filter_length_le fl_nonzero (fun v => negb (Qle_bool v c))).
      intros v Hnz.
      change (negb (Qeq_bool (f v / Qsum kept) 0) = true) in Hnz.
      destruct (Qle_bool v c) eqn:Hle; [|reflexivity].
      apply Qle_bool_iff in Hle.
      apply negb_true_iff in Hnz.
      assert (Hz : f v / Qsum kept == 0).
      { unfold f. rewrite (gt_float_below v c Hle). field. lra. }
      apply Qeq_bool_iff in Hz. congruence.
    + rewrite (filter_length_perm _ p (a :: b :: c :: rest))
        by (apply Permutation_sym, Hperm).
      cbn [filter].
      assert (Hcc : Qle_bool c c = true) by (apply Qle_bool_iff, Qle_refl).
      rewrite Hcc. cbn [negb].
      rewrite (filter_all_below c rest Hrest).
      destruct (negb (Qle_bool a c)), (negb (Qle_bool b c)); cbn; lia.
Qed.

Section Distribution.

Context {E : Externals} {L : ExternalsLaws E}.

(** Whenever the highest softmax probability of every image is strictly
    above its third-highest, label inference returns for each image a row
    of finite, non-negative probabilities that sum to one with at most two
    entries different from zero. *)
Theorem label_probs_are_a_distribution_without_top_tie
  (self : OracleInpainter) (x mask : tensor Q) (g g' : rng)
  (logits : tensor Q) (probs : list (list Q)) :
  softmax_probs self x mask g = Ok ((logits, probs), g') ->
  (forall p, In p probs ->
     exists (a b c : Q) (rest : list Q), sort_desc p = a :: b :: c :: rest /\ c < a) ->
  exists (t : tensor fl) (rows : list (list fl)),
    infer_label_probs self x mask false g = Ok (t, g')
    /\ shape t = [length probs; (numel (shape logits) / length probs)%nat]
    /\ data t = concat rows
    /\ length rows = length probs
    /\ Forall distribution_on_two rows.
Proof.
  intros Hprobs Hgap.
  assert (Hpos : forall p, In p probs -> forall v, In v p -> 0 < v).
  { unfold softmax_probs in Hprobs.
    apply bind_ok_inv in Hprobs as (lg & g1 & _ & Hprobs).
    apply bind_ok_inv in Hprobs as (B & g2 & _ & Hprobs).
    apply bind_ok_inv in Hprobs as (rows0 & g3 & _ & Hprobs).
    injection Hprobs as _ <- _.
    intros p Hp v Hv. apply in_map_iff in Hp as (row & <- & _).
    now apply softmax_pos in Hv. }
  destruct (rmapM_Forall2 sparsify (fun _ r => distribution_on_two r) probs)
    as (rows & Hrows & HF).
  { intros p Hp. destruct (Hgap p Hp) as (a & b & c & rest & Hsort & Hca).
    apply (sparsify_is_distribution p a b c rest Hsort Hca (Hpos p Hp)). }
  pose proof (rmapM_length _ _ _ Hrows) as Hlen.
  eexists _, rows. split.
  { unfold infer_label_probs.
    rewrite (bind_ok _ _ _ _ _ Hprobs). cbn [snd fst].
    rewrite (bind_ok _ _ _ _ _ (lift_ok _ _ g' Hrows)). reflexivity. }
  cbn [shape data]. rewrite Hlen.
  repeat split.
  clear -HF. induction HF; constructor; assumption.
Qed.

End Distribution.

(** ** The constructor and the driver's dispatch *)

Lemma lower_ascii_idempotent (c : ascii) : lower_ascii (lower_ascii c) = lower_ascii c.
Proof.
  destruct c as [[] [] [] [] [] [] [] []]; reflexivity.
Qed.

Lemma lower_idempotent (s : string) : lower (lower s) = lower s.
Proof.
  induction s as [|c s IH]; cbn [lower]; [reflexivity|].
  now rewrite lower_ascii_idempotent, IH.
Qed.

Section Dispatch.

Context {E : Externals}.

(** The constructor reads its mode without regard to case: a mode and
    its lower-case form give the same result.  An accepted mode builds
    one filter of kernel [block_width] and stride [block_width // 2], the
    median filter exactly when the mode spells median. *)
Theorem init_reads_mode_without_case (mode : string) :
  __init__ (lower mode) = __init__ mode
  /\ (str_in (lower mode) supported_modes = true ->
      exists f : pool,
        __init__ mode = ([SuperInit; BuildFilter f], Ok (mkOracleInpainter f))
        /\ kernel_size f = block_width
        /\ stride f = (block_width / 2)%Z
        /\ (pool_class f = MedianPool2d <-> lower mode = "median"%string)).
Proof.
  split.
  - unfold __init__. now rewrite lower_idempotent.
  - intro Hin. unfold __init__. rewrite Hin.
    eexists. split; [reflexivity|]. cbn [kernel_size stride pool_class].
    split; [reflexivity|]. split; [reflexivity|].
    destruct (String.eqb_spec (lower mode) "median") as [Heq|Hneq].
    + split; [intros _; exact Heq | reflexivity].
    + split; [discriminate | contradiction].
Qed.

(** The driver's own filter and the inpainter's filter are the same
    unless the mode is a spelling of median with a capital letter in it:
    the constructor lower-cases the mode and the driver does not. *)
Theorem driver_filter_matches_inpainter_filter
  (mode : string) (trace : list init_event) (o : OracleInpainter) :
  __init__ mode = (trace, Ok o) ->
  (filt o = driver_filter mode
   <-> (lower mode = "median"%string -> mode = "median"%string)).
Proof.
  unfold __init__, driver_filter.
  destruct (str_in (lower mode) supported_modes); [|discriminate].
  intro H. injection H as _ <-. cbn [filt].
  destruct (String.eqb_spec (lower mode) "median") as [Hl|Hl],
           (String.eqb_spec mode "median") as [Hm|Hm].
  - split; [intros _ _; exact Hm | reflexivity].
  - split; [discriminate | intro Himp; elim Hm; exact (Himp Hl)].
  - subst mode. elim Hl. reflexivity.
  - split; [intros _ Hc; contradiction | reflexivity].
Qed.

(** The driver accepts exactly three generator names, two of them
    misspelt: the names MeanInpainter and LocalMeanInpainter that the help
    text offers fail its assertion. *)
Theorem select_inpainter_accepted_names (name mode : string) :
  (select_inpainter name mode = Raise (AssertionError "unsupported gen model name")
   <-> name <> "OracleInpainter"%string
       /\ name <> "LocalMeanInpatinter"%string
       /\ name <> "MeanInpatinter"%string)
  /\ select_inpainter "MeanInpainter" mode
     = Raise (AssertionError "unsupported gen model name")
  /\ select_inpainter "LocalMeanInpainter" mode
     = Raise (AssertionError "unsupported gen model name").
Proof.
  split; [|split; reflexivity].
  unfold select_inpainter.
  destruct (String.eqb_spec name "OracleInpainter") as [H1|H1].
  - split; [|intros [Hc _]; contradiction].
    unfold __init__. destruct (str_in (lower mode) supported_modes); discriminate.
  - destruct (String.eqb_spec name "LocalMeanInpatinter") as [H2|H2].
    + split; [discriminate | intros (_ & Hc & _); contradiction].
    + destruct (String.eqb_spec name "MeanInpatinter") as [H3|H3].
      * split; [discriminate | intros (_ & _ & Hc); contradiction].
      * split; [intros _; repeat split; assumption | reflexivity].
Qed.

End Dispatch.

(** ** Batches of masks *)

Lemma replicateM_ok {S A : Type} (m : M S A) (P : A -> Prop) :
  (forall g, exists a g', m g = Ok (a, g') /\ P a) ->
  forall (n : nat) (g : S),
    exists l g', replicateM n m g = Ok (l, g') /\ length l = n /\ Forall P l.
Proof.
  intros Hm n. induction n as [|n IH]; intro g.
  - exists [], g. repeat split. constructor.
  - destruct (Hm g) as (a & g1 & Ha & HP).
    destruct (IH g1) as (l & g2 & Hl & Hlen & Hall).
    exists (a :: l), g2. cbn [replicateM].
    rewrite (bind_ok _ _ _ _ _ Ha). cbv beta.
    rewrite (bind_ok _ _ _ _ _ Hl). cbv beta.
    repeat split; [cbn; now rewrite Hlen | now constructor].
Qed.

Lemma length_concat_uniform {A : Type} (len : nat) (ls : list (list A)) :
  Forall (fun l => length l = len) ls ->
  length (concat ls) = (length ls * len)%nat.
Proof.
  induction 1 as [|l ls Hl _ IH]; cbn; [reflexivity|].
  now rewrite length_app, Hl, IH.
Qed.

Lemma Forall_concat {A : Type} (P : A -> Prop) (ls : list (list A)) :
  Forall (Forall P) ls -> Forall P (concat ls).
Proof.
  induction 1 as [|l ls Hl _ IH]; cbn; [constructor|].
  apply Forall_app. split; assumption.
Qed.

(** Stacking tensors of one shape. *)
Lemma stack_uniform {A : Type} (s : list nat) (ts : list (tensor A)) :
  ts <> [] ->
  Forall (fun t => shape t = s /\ wf_tensor t) ts ->
  exists t, stack ts = Ok t
            /\ shape t = length ts :: s
            /\ data t = concat (map (@data A) ts)
            /\ wf_tensor t.
Proof.
  intros Hne Hall. destruct ts as [|t0 ts]; [congruence|].
  unfold stack.
  assert (Hs0 : shape t0 = s) by (inversion Hall as [|? ? [H _] _]; exact H).
  assert (Hb : forallb (fun u => shape_eqb (shape u) (shape t0)) (t0 :: ts) = true).
  { apply forallb_forall. intros u Hu.
    apply (proj1 (Forall_forall _ _) Hall) in Hu as [Hu _].
    rewrite Hu, Hs0. apply shape_eqb_refl. }
  rewrite Hb. eexists. split; [reflexivity|]. cbn [shape data].
  split; [now rewrite Hs0|]. split; [reflexivity|].
  unfold wf_tensor. cbn [shape data numel fold_right]. fold (numel (shape t0)).
  rewrite (length_concat_uniform (numel s)).
  - now rewrite length_map, Hs0.
  - apply Forall_map. revert Hall. apply Forall_impl.
    intros u [Hu Hwf]. unfold wf_tensor in Hwf. now rewrite Hwf, Hu.
Qed.

Section MaskBatches.

Context {E : Externals}.

Lemma random_mask_ok {L : ExternalsLaws E}
  (im_shape : list nat) (p : Q) (g : rng) :
  0 <= p -> p <= 1 -> im_shape <> [] ->
  exists t g',
    random_mask im_shape p g = Ok (t, g')
    /\ (shape t = 1%nat :: im_shape /\ wf_tensor t)
    /\ Forall binary (data t).
Proof.
  intros H0 H1 Hdim. unfold random_mask.
  apply Qle_bool_iff in H0. apply Qle_bool_iff in H1. rewrite H0, H1. cbn [andb].
  destruct im_shape as [|d0 dims]; [congruence|].
  set (im_shape := d0 :: dims).
  destruct (replicateM_draw (binomial 1 p) (fun z => z = 0%Z \/ z = 1%Z))
    with (n := numel im_shape) (g := g) as (l & g' & Hrun & Hlen & Hall).
  { intro g0.
    pose proof (@binomial_range E L 1 p g0 ltac:(lia)
                  (proj1 (Qle_bool_iff _ _) H0) (proj1 (Qle_bool_iff _ _) H1)).
    lia. }
  rewrite (bind_ok _ _ _ _ _ Hrun). cbv beta.
  eexists _, g'. split; [reflexivity|]. cbn [unsqueeze0 shape data]. split.
  - split; [reflexivity|]. unfold wf_tensor. cbn [unsqueeze0 shape data].
    rewrite length_map, Hlen. unfold numel. cbn [fold_right]. lia.
  - apply Forall_map. revert Hall. apply Forall_impl.
    intros z [-> | ->]; [left | right]; reflexivity.
Qed.

(** For a probability in [0, 1], an image shape of at least one
    dimension and at least one mask, [random_mask_batch] returns a
    well-formed batch of shape [batch_size; 1] followed by the image
    shape, every cell 0 or 1. *)
Theorem random_mask_batch_shape_and_cells {L : ExternalsLaws E}
  (batch_size : nat) (im_shape : list nat) (p : Q) (g : rng) :
  0 <= p -> p <= 1 -> im_shape <> [] -> (0 < batch_size)%nat ->
  exists t g',
    random_mask_batch batch_size im_shape p g = Ok (t, g')
    /\ shape t = batch_size :: 1%nat :: im_shape
    /\ wf_tensor t
    /\ Forall binary (data t).
Proof.
  intros H0 H1 Hdim Hn. unfold random_mask_batch.
  destruct (replicateM_ok (random_mask im_shape p)
              (fun t => (shape t = 1%nat :: im_shape /\ wf_tensor t)
                        /\ Forall binary (data t)))
    with (n := batch_size) (g := g) as (ms & g' & Hrun & Hlen & Hall).
  { intro g0. apply (random_mask_ok im_shape p g0 H0 H1 Hdim). }
  destruct (stack_uniform (1%nat :: im_shape) ms) as (t & Hstack & Hshape & Hdata & Hwf).
  { intro Hnil. rewrite Hnil in Hlen. cbn in Hlen. lia. }
  { revert Hall. apply Forall_impl. intros u [Hu _]. exact Hu. }
  exists t, g'. rewrite (bind_ok _ _ _ _ _ Hrun). cbv beta.
  split; [now apply lift_ok|]. split; [now rewrite Hshape, Hlen|].
  split; [exact Hwf|]. rewrite Hdata.
  apply Forall_concat, Forall_map. revert Hall. apply Forall_impl.
  intros u [_ Hu]. exact Hu.
Qed.

(** The edges of the random masks: an empty batch cannot be stacked,
    whatever the probability, and a probability outside [0, 1] is
    refused by the first mask drawn. *)
Theorem random_mask_batch_edges (batch_size : nat) (im_shape : list nat) (p : Q)
  (g : rng) :
  random_mask_batch 0 im_shape p g
  = Raise (RuntimeError "stack expects a non-empty TensorList")
  /\ (p < 0 \/ 1 < p ->
      random_mask im_shape p g = Raise (ValueError "p < 0, p > 1 or p is NaN")
      /\ random_mask_batch (S batch_size) im_shape p g
         = Raise (ValueError "p < 0, p > 1 or p is NaN")).
Proof.
  split; [reflexivity|].
  intro Hp.
  assert (Hmask : random_mask im_shape p g
                  = Raise (ValueError "p < 0, p > 1 or p is NaN")).
  { unfold random_mask.
    destruct (Qle_bool 0 p) eqn:H0; [|reflexivity].
    destruct (Qle_bool p 1) eqn:H1; [|reflexivity].
    apply Qle_bool_iff in H0. apply Qle_bool_iff in H1. lra. }
  split; [exact Hmask|].
  unfold random_mask_batch. cbn [replicateM].
  apply bind_raise, bind_raise. exact Hmask.
Qed.

End MaskBatches.

(** ** The random mask of the empty shape *)

Section EmptyShape.

Context {E : Externals}.


End EmptyShape.

(** ** More on the half-block mask *)

Lemma mapM_same_state {S A B : Type} (f : A -> M S B) (P : B -> Prop)
  (l : list A) (g : S) :
  (forall a, In a l -> exists b, f a g = Ok (b, g) /\ P b) ->
  exists bs, mapM f l g = Ok (bs, g) /\ length bs = length l /\ Forall P bs.
Proof.
  induction l as [|a l IH]; intro H.
  - exists []. repeat split. constructor.
  - destruct (H a (or_introl eq_refl)) as (b & Hb & HP).
    destruct IH as (bs & Hbs & Hlen & Hall); [intros a' Ha'; apply H; now right|].
    exists (b :: bs). cbn [mapM].
    rewrite (bind_ok _ _ _ _ _ Hb). cbv beta.
    rewrite (bind_ok _ _ _ _ _ Hbs). cbv beta.
    repeat split; [cbn; now rewrite Hlen | now constructor].
Qed.

Lemma flat_map_ext_in' {A B : Type} (f f' : A -> list B) (l : list A) :
  (forall a, In a l -> f a = f' a) -> flat_map f l = flat_map f' l.
Proof.
  induction l as [|a l IH]; intro H; cbn; [reflexivity|].
  rewrite (H a (or_introl eq_refl)), IH; [reflexivity|].
  intros a' Ha'. apply H. now right.
Qed.

Lemma init3_ext (H W R : nat) (f f' : nat -> nat -> nat -> Q) :
  (forall i j r, (i < H)%nat -> (j < W)%nat -> (r < R)%nat -> f i j r = f' i j r) ->
  init3 H W R f = init3 H W R f'.
Proof.
  intro Hext. unfold init3.
  apply flat_map_ext_in'. intros i Hi. apply in_seq in Hi.
  apply flat_map_ext_in'. intros j Hj. apply in_seq in Hj.
  apply map_ext_in. intros r Hr. apply in_seq in Hr.
  apply Hext; lia.
Qed.

Section HalfBlockMore.

Context {E : Externals}.

Lemma half_block_offset_ok (label : Z) :
  (1 <= num_labels)%Z ->
  half_block_offset label
  = Ok (((if (label mod Z.sqrt num_labels <? 2)%Z then -1 else 1) * block_width) / 2)%Z.
Proof.
  intro Hn. unfold half_block_offset.
  destruct (Z.ltb_spec num_labels 0); [lia|].
  destruct (Z.eqb_spec (Z.sqrt num_labels) 0) as [Hk|Hk]; [|reflexivity].
  pose proof (Z.sqrt_le_mono 1 num_labels Hn) as Hs.
  change (Z.sqrt 1) with 1%Z in Hs. lia.
Qed.

Lemma half_block_mask_ok (H W : nat) (rest : list nat) (label : Z) (g : rng) :
  (1 <= num_labels)%Z ->
  exists t,
    random_half_block_mask (H :: W :: rest) (Some label) g = Ok (t, g)
    /\ (shape t = 1%nat :: H :: W :: rest /\ wf_tensor t)
    /\ Forall binary (data t).
Proof.
  intro Hn. unfold random_half_block_mask. rewrite bind_ret.
  rewrite (bind_ok _ _ _ _ _ (lift_ok _ _ g (half_block_offset_ok label Hn))).
  cbv beta. eexists. split; [reflexivity|]. cbn [unsqueeze0 shape data]. split.
  - split; [reflexivity|]. unfold wf_tensor. cbn [shape data].
    destruct (_label_to_patch_pixels label block_width (block_width / 2))
      as [[[r0 r1] c0] c1].
    unfold ground_truth_block.
    rewrite half_block_cells_init3. cbn [unsqueeze0 shape data].
    rewrite length_init3.
    unfold numel. cbn [fold_right]. lia.
  - apply half_block_cells_binary.
Qed.

(** Given labels, [random_half_block_mask_batch] draws nothing and
    returns one mask per label, whatever the batch size passed: a
    well-formed batch of shape [number of labels; 1] followed by the image
    shape, every cell 0 or 1.  An empty list of labels cannot be
    stacked. *)
Theorem half_block_mask_batch_follows_labels
  (batch_size H W : nat) (rest : list nat) (labels : list Z) (g : rng) :
  (1 <= num_labels)%Z -> labels <> [] ->
  (exists t,
      random_half_block_mask_batch batch_size (H :: W :: rest)
        (Some (map Some labels)) g = Ok (t, g)
      /\ shape t = length labels :: 1%nat :: H :: W :: rest
      /\ wf_tensor t
      /\ Forall binary (data t))
  /\ random_half_block_mask_batch batch_size (H :: W :: rest) (Some []) g
     = Raise (RuntimeError "stack expects a non-empty TensorList").
Proof.
  intros Hn Hne. split; [|reflexivity].
  unfold random_half_block_mask_batch.
  destruct (mapM_same_state (random_half_block_mask (H :: W :: rest))
              (fun t => (shape t = 1%nat :: H :: W :: rest /\ wf_tensor t)
                        /\ Forall binary (data t))
              (map Some labels) g)
    as (ms & Hrun & Hlen & Hall).
  { intros a Ha. apply in_map_iff in Ha as (l & <- & _).
    apply (half_block_mask_ok H W rest l g Hn). }
  rewrite length_map in Hlen.
  destruct (stack_uniform (1%nat :: H :: W :: rest) ms)
    as (t & Hstack & Hshape & Hdata & Hwf).
  { intro Hnil. rewrite Hnil in Hlen. destruct labels; [congruence | discriminate]. }
  { revert Hall. apply Forall_impl. intros u [Hu _]. exact Hu. }
  exists t. rewrite (bind_ok _ _ _ _ _ Hrun). cbv beta.
  split; [now apply lift_ok|]. split; [now rewrite Hshape, Hlen|].
  split; [exact Hwf|]. rewrite Hdata.
  apply Forall_concat, Forall_map. revert Hall. apply Forall_impl.
  intros u [_ Hu]. exact Hu.
Qed.

(** The offset of line 79 is the floor of minus half the block width for
    a label in the first two columns of the label grid and the floor of
    half the block width otherwise: for an odd block width the two shifts
    differ in size by one. *)
Theorem half_block_offset_by_column (label : Z) :
  (1 <= num_labels)%Z ->
  exists off : Z,
    half_block_offset label = Ok off
    /\ ((label mod Z.sqrt num_labels < 2)%Z -> off = (- ((block_width + 1) / 2))%Z)
    /\ ((2 <= label mod Z.sqrt num_labels)%Z -> off = (block_width / 2)%Z)
    /\ (Z.odd block_width = true ->
        (- ((block_width + 1) / 2) = - (block_width / 2) - 1)%Z).
Proof.
  intro Hn. eexists. split; [apply (half_block_offset_ok label Hn)|].
  split; [|split].
  - intro Hc. destruct (Z.ltb_spec (label mod Z.sqrt num_labels) 2); [|lia].
    pose proof (Z.div_mod (-1 * block_width) 2 ltac:(lia)).
    pose proof (Z.mod_pos_bound (-1 * block_width) 2 ltac:(lia)).
    pose proof (Z.div_mod (block_width + 1) 2 ltac:(lia)).
    pose proof (Z.mod_pos_bound (block_width + 1) 2 ltac:(lia)).
    lia.
  - intro Hc. destruct (Z.ltb_spec (label mod Z.sqrt num_labels) 2); [lia|].
    f_equal. lia.
  - intro Hodd. rewrite Z.odd_spec in Hodd. destruct Hodd as [m Hm].
    pose proof (Z.div_mod (block_width + 1) 2 ltac:(lia)).
    pose proof (Z.mod_pos_bound (block_width + 1) 2 ltac:(lia)).
    pose proof (Z.div_mod block_width 2 ltac:(lia)).
    pose proof (Z.mod_pos_bound block_width 2 ltac:(lia)).
    lia.
Qed.

(** When the offset is zero (a block width of 0, or of 1 for a label
    beyond the first two columns) nothing is shifted and the mask is the
    ground-truth patch itself. *)
Theorem half_block_mask_without_offset_is_the_patch
  (H W : nat) (rest : list nat) (label : Z) (g : rng) :
  half_block_offset label = Ok 0%Z ->
  random_half_block_mask (H :: W :: rest) (Some label) g
  = Ok (unsqueeze0
          (mkTensor (H :: W :: rest)
             (ground_truth_block H W (numel rest)
                (_label_to_patch_pixels label block_width (block_width / 2)))),
        g).
Proof.
  intro Hoff. unfold random_half_block_mask. rewrite bind_ret.
  rewrite (bind_ok _ _ _ _ _ (lift_ok _ _ g Hoff)). cbv beta.
  unfold ret, Ok. do 3 f_equal.
  destruct (_label_to_patch_pixels label block_width (block_width / 2))
    as [[[r0 r1] c0] c1].
  unfold ground_truth_block. rewrite half_block_cells_init3.
  f_equal. apply init3_ext. intros i j r Hi Hj Hr.
  change (- 0)%Z with 0%Z. rewrite Z.sub_0_r.
  rewrite Z.mod_small by lia. rewrite Nat2Z.id.
  rewrite get3_init3 by assumption.
  destruct (in_slice H r0 r1 i && in_slice W c0 c1 j); reflexivity.
Qed.

End HalfBlockMore.

(** ** The input of the filter *)

Section MaskedInput.

Context {E : Externals}.

Lemma randn_ok (s : list nat) (g : rng) :
  s <> [] ->
  exists noise g',
    randn s g = Ok (noise, g')
    /\ shape noise = s /\ length (data noise) = numel s.
Proof.
  intro Hs. unfold randn. destruct s as [|d s]; [congruence|].
  destruct (replicateM_draw randn1 (fun _ => True) (fun _ => I) (numel (d :: s)) g)
    as (l & g' & Hrun & Hlen & _).
  rewrite (bind_ok _ _ _ _ _ Hrun). cbv beta.
  eexists _, g'. split; [reflexivity|]. split; [reflexivity | exact Hlen].
Qed.

Lemma masked_input_ok (x mask : tensor Q) (g : rng) :
  shape mask = shape x -> shape x <> [] ->
  exists noise g',
    randn (shape mask) g = Ok (noise, g')
    /\ length (data noise) = numel (shape x)
    /\ masked_input x mask g
       = Ok (mkTensor (shape x)
               (zipWith Qplus
                  (zipWith Qmult (map (fun v => 1 - v) (data mask)) (data x))
                  (zipWith Qmult (map (fun v => v * noise_level) (data mask))
                     (data noise))),
             g').
Proof.
  intros Hm Hx.
  destruct (randn_ok (shape mask) g) as (noise & g' & Hnoise & Hns & Hnl);
    [congruence|].
  exists noise, g'. split; [exact Hnoise|]. split; [now rewrite Hnl, Hm|].
  unfold masked_input, tmul, tadd.
  rewrite (bind_ok _ _ _ _ _
             (lift_ok _ _ g (tzip_same_shape Qmult (one_minus mask) x Hm))).
  cbv beta. rewrite (bind_ok _ _ _ _ _ Hnoise). cbv beta.
  rewrite (bind_ok _ _ _ _ _
             (lift_ok _ _ g'
                (tzip_same_shape Qmult (tscale mask noise_level) noise
                   (eq_sym Hns)))).
  cbv beta. unfold lift. rewrite tzip_same_shape by reflexivity.
  cbn [shape data one_minus tscale tmap]. now rewrite Hm.
Qed.

(** The image that the filter sees (line 45): the input wherever the mask
    is 0 and noise of the data set's noise level wherever the mask is 1,
    so a pixel of the input under the mask takes no part in it. *)
Theorem masked_input_keeps_cells_where_mask_is_zero
  (x mask : tensor Q) (g : rng) (n : nat) :
  shape mask = shape x -> shape x <> [] ->
  numel (shape x) = n -> length (data x) = n -> length (data mask) = n ->
  exists noise xm g',
    randn (shape mask) g = Ok (noise, g')
    /\ masked_input x mask g = Ok (xm, g')
    /\ shape xm = shape x
    /\ forall k : nat, (k < n)%nat ->
         (nth k (data mask) 0 == 0 -> nth k (data xm) 0 == nth k (data x) 0)
         /\ (nth k (data mask) 0 == 1 ->
             nth k (data xm) 0 == noise_level * nth k (data noise) 0).
Proof.
  intros Hm Hx Hn Hlx Hlm.
  destruct (masked_input_ok x mask g Hm Hx) as (noise & g' & Hnoise & Hnl & Hrun).
  exists noise. eexists _, g'. split; [exact Hnoise|]. split; [exact Hrun|].
  split; [reflexivity|]. intros k Hk. cbn [data].
  rewrite (nth_zipWith Qplus 0 0 0)
    by (rewrite !length_zipWith, !length_map; lia).
  rewrite !(nth_zipWith Qmult 0 0 0) by (rewrite ?length_map; lia).
  rewrite (nth_indep (map (fun v => 1 - v) (data mask)) 0 (1 - 0))
    by (rewrite length_map; lia).
  rewrite (map_nth (fun v => 1 - v)).
  rewrite (nth_indep (map (fun v => v * noise_level) (data mask)) 0 (0 * noise_level))
    by (rewrite length_map; lia).
  rewrite (map_nth (fun v => v * noise_level)).
  split; intro Hmask; rewrite Hmask; ring.
Qed.

End MaskedInput.

(** ** The layout of the label probabilities *)

Lemma length_init4 (B C H W : nat) (f : nat -> nat -> nat -> nat -> Q) :
  length (data (init4 B C H W f)) = (B * (C * (H * W)))%nat.
Proof.
  unfold init4. cbn [data].
  assert (Hrow : forall (g : nat -> Q) (s : nat),
            length (map g (seq s W)) = W)
    by (intros; now rewrite length_map, length_seq).
  assert (Himg : forall (g : nat -> nat -> Q) (s : nat),
            length (flat_map (fun i => map (g i) (seq 0 W)) (seq s H)) = (H * W)%nat).
  { intro g. induction H as [|H IH]; intro s; cbn; [reflexivity|].
    now rewrite length_app, Hrow, IH. }
  assert (Hch : forall (g : nat -> nat -> nat -> Q) (s : nat),
            length (flat_map (fun c => flat_map (fun i => map (g c i) (seq 0 W)) (seq 0 H))
                      (seq s C)) = (C * (H * W))%nat).
  { intro g. induction C as [|C IH]; intro s; cbn; [reflexivity|].
    now rewrite length_app, Himg, IH. }
  generalize 0%nat at 4. induction B as [|B IH]; intro s; cbn; [reflexivity|].
  now rewrite length_app, Hch, IH.
Qed.

Lemma crop_border_ok (t c : tensor Q) :
  crop_border t = Ok c ->
  wf_tensor c /\ exists B C H W, shape c = [B; C; H; W].
Proof.
  unfold crop_border.
  destruct (shape t) as [|B [|C [|H [|W [|? ?]]]]]; try discriminate.
  intro Hc. injection Hc as <-. split.
  - unfold wf_tensor. rewrite length_init4. cbn. lia.
  - now exists B, C, (H - 2)%nat, (W - 2)%nat.
Qed.

Lemma chunks_all_length {A : Type} (len : nat) :
  forall (n : nat) (l : list A),
    (n * len <= length l)%nat ->
    Forall (fun c => length c = len) (chunks len n l).
Proof.
  induction n as [|n IH]; intros l Hl; cbn [chunks]; constructor.
  - rewrite length_firstn. cbn in Hl. lia.
  - apply IH. rewrite length_skipn. cbn in Hl. lia.
Qed.

Lemma concat_chunks {A : Type} (len : nat) :
  forall (n : nat) (l : list A),
    length l = (n * len)%nat -> concat (chunks len n l) = l.
Proof.
  induction n as [|n IH]; intros l Hl; cbn [chunks concat].
  - destruct l; [reflexivity | discriminate].
  - rewrite IH by (rewrite length_skipn; cbn in Hl; lia).
    apply firstn_skipn.
Qed.

Lemma view_rows_ok (B : nat) (t : tensor Q) (rows : list (list Q)) :
  view_rows B t = Ok rows -> wf_tensor t ->
  (0 < B)%nat
  /\ length rows = B
  /\ (B * (numel (shape t) / B))%nat = numel (shape t)
  /\ Forall (fun r => length r = (numel (shape t) / B)%nat) rows.
Proof.
  unfold view_rows, wf_tensor. intros Hv Hwf.
  destruct (Nat.eqb_spec B 0);
    [destruct (numel (shape t) =? 0)%nat; discriminate|].
  destruct (Nat.eqb_spec (numel (shape t) mod B) 0) as [Hmod|]; [|discriminate].
  injection Hv as <-.
  assert (Hexact : (B * (numel (shape t) / B))%nat = numel (shape t)).
  { symmetry. apply Nat.Div0.div_exact. assumption. }
  split; [lia|]. split; [apply chunks_length|]. split; [exact Hexact|].
  apply chunks_all_length. lia.
Qed.

Lemma sort_desc_length (p : list Q) : length (sort_desc p) = length p.
Proof. apply Permutation_length, sort_desc_perm. Qed.

Lemma sparsify_long (p : list Q) :
  (3 <= length p)%nat ->
  exists r, sparsify p = Ok r /\ length r = length p.
Proof.
  intro Hl. unfold sparsify, take_top_two, third_highest.
  destruct (nth_error (sort_desc p) 2) as [thr|] eqn:Hn.
  - cbn [rbind Ok]. eexists. split; [reflexivity|].
    unfold renormalize. now rewrite !length_map.
  - apply nth_error_None in Hn. rewrite sort_desc_length in Hn. lia.
Qed.

Lemma sparsify_short (p : list Q) :
  (length p < 3)%nat ->
  sparsify p = Raise (IndexError "index 2 is out of bounds for dimension 1").
Proof.
  intro Hl. unfold sparsify, take_top_two, third_highest.
  destruct (nth_error (sort_desc p) 2) as [thr|] eqn:Hn; [|reflexivity].
  assert (Hsome : nth_error (sort_desc p) 2 <> None) by congruence.
  apply nth_error_Some in Hsome. rewrite sort_desc_length in Hsome. lia.
Qed.

Lemma sparsify_ok_length (p : list Q) (r : list fl) :
  sparsify p = Ok r -> (3 <= length p)%nat /\ length r = length p.
Proof.
  intro Hr. destruct (Nat.lt_ge_cases (length p) 3) as [Hlt|Hge].
  - rewrite (sparsify_short p Hlt) in Hr. discriminate.
  - split; [exact Hge|]. destruct (sparsify_long p Hge) as (r' & Hr' & Hlen).
    rewrite Hr in Hr'. injection Hr' as <-. exact Hlen.
Qed.

Lemma rmapM_ok_Forall2 {A B : Type} (f : A -> result B) (l : list A) (bs : list B) :
  rmapM f l = Ok bs -> Forall2 (fun a b => f a = Ok b) l bs.
Proof.
  revert bs. induction l as [|a l IH]; intros bs H; cbn [rmapM] in H.
  - injection H as <-. constructor.
  - destruct (f a) as [e|b] eqn:Hb; cbn [rbind] in H; [discriminate|].
    destruct (rmapM f l) as [e|bs'] eqn:Hbs; cbn [rbind] in H; [discriminate|].
    injection H as <-. constructor; [exact Hb | now apply IH].
Qed.

Section Layout.

Context {E : Externals}.

Lemma softmax_length (row : list Q) : length (softmax row) = length row.
Proof. unfold softmax. now rewrite !length_map. Qed.

Lemma softmax_probs_inv (self : OracleInpainter) (x mask : tensor Q) (g g' : rng)
  (logits : tensor Q) (probs : list (list Q)) :
  softmax_probs self x mask g = Ok ((logits, probs), g') ->
  exists (B : nat) (rest : list nat),
    shape x = B :: rest
    /\ (0 < B)%nat
    /\ length probs = B
    /\ (B * (numel (shape logits) / B))%nat = numel (shape logits)
    /\ Forall (fun p => length p = (numel (shape logits) / B)%nat) probs
    /\ length (shape logits) = 4%nat.
Proof.
  intro H. unfold softmax_probs, label_logits in H.
  apply bind_ok_inv in H as (lg & g1 & Hlg & H).
  apply bind_ok_inv in Hlg as (xm & g2 & _ & Hlg).
  apply bind_ok_inv in Hlg as (raw & g3 & _ & Hlg).
  apply lift_ok_inv in Hlg as [Hcrop _].
  apply bind_ok_inv in H as (B & g4 & HB & H).
  apply bind_ok_inv in H as (rows & g5 & Hrows & H).
  apply lift_ok_inv in HB as [HB _]. apply lift_ok_inv in Hrows as [Hrows _].
  injection H as <- <- _.
  destruct (crop_border_ok raw lg Hcrop) as [Hwf (b & c & h & w & Hshape)].
  destruct (view_rows_ok B lg rows Hrows Hwf) as (HB0 & Hlen & Hexact & Hall).
  unfold len in HB. destruct (shape x) as [|B' rest]; [discriminate|].
  injection HB as ->.
  exists B, rest. split; [reflexivity|]. split; [exact HB0|].
  split; [now rewrite length_map|]. split; [exact Hexact|].
  split; [|now rewrite Hshape].
  apply Forall_map. revert Hall. apply Forall_impl.
  intros r Hr. now rewrite softmax_length.
Qed.

Lemma infer_label_probs_inv (self : OracleInpainter) (x mask : tensor Q)
  (imshape : bool) (g g' : rng) (t : tensor fl) :
  infer_label_probs self x mask imshape g = Ok (t, g') ->
  exists (logits : tensor Q) (probs : list (list Q)) (rows : list (list fl)),
    softmax_probs self x mask g = Ok ((logits, probs), g')
    /\ rmapM sparsify probs = Ok rows
    /\ t = mkTensor
             (if imshape then shape logits
              else [length rows; (numel (shape logits) / length rows)%nat])
             (concat rows).
Proof.
  intro H. unfold infer_label_probs in H.
  apply bind_ok_inv in H as ([logits probs] & g1 & Hp & H).
  apply bind_ok_inv in H as (rows & g2 & Hrows & H).
  apply lift_ok_inv in Hrows as [Hrows ->].
  injection H as <- <-.
  exists logits, probs, rows. repeat split; assumption.
Qed.

Lemma infer_label_probs_of (self : OracleInpainter) (x mask : tensor Q)
  (imshape : bool) (g g' : rng) (logits : tensor Q) (probs : list (list Q))
  (rows : list (list fl)) :
  softmax_probs self x mask g = Ok ((logits, probs), g') ->
  rmapM sparsify probs = Ok rows ->
  infer_label_probs self x mask imshape g
  = Ok (mkTensor
          (if imshape then shape logits
           else [length rows; (numel (shape logits) / length rows)%nat])
          (concat rows), g').
Proof.
  intros Hp Hrows. unfold infer_label_probs.
  rewrite (bind_ok _ _ _ _ _ Hp). cbv beta. cbn [fst snd].
  rewrite (bind_ok _ _ _ _ _ (lift_ok _ _ g' Hrows)). reflexivity.
Qed.

Lemma rows_layout (probs : list (list Q)) (rows : list (list fl)) (B L : nat) :
  rmapM sparsify probs = Ok rows ->
  length probs = B -> (0 < B)%nat ->
  Forall (fun p => length p = L) probs ->
  length rows = B /\ (3 <= L)%nat /\ Forall (fun r => length r = L) rows.
Proof.
  intros Hrows Hlen HB Hall.
  pose proof (rmapM_length _ _ _ Hrows) as Hl.
  apply rmapM_ok_Forall2 in Hrows.
  split; [lia|].
  assert (Hboth : Forall (fun r => length r = L) rows /\ (probs <> [] -> (3 <= L)%nat)).
  { clear Hl Hlen HB. induction Hrows as [|p r probs rows Hpr _ IH].
    - split; [constructor | congruence].
    - inversion Hall as [|? ? Hp Hall']; subst.
      apply sparsify_ok_length in Hpr as [H3 Hr].
      split; [constructor; [lia | now apply IH] | intros _; lia]. }
  destruct Hboth as [Hrs H3]. split; [|exact Hrs].
  apply H3. intro Hnil. rewrite Hnil in Hlen. cbn in Hlen. lia.
Qed.

(** Whenever label inference returns, its flat result is a well-formed
    tensor of shape [B; L], one row of [L >= 3] probabilities per image
    of the batch, and the call with [imshape] set returns the same cells
    and the same random state under the four-dimensional shape of the
    cropped filter response, which has as many cells. *)
Theorem infer_label_probs_layout
  (self : OracleInpainter) (x mask : tensor Q) (g g' : rng) (t : tensor fl) :
  infer_label_probs self x mask false g = Ok (t, g') ->
  exists (B L : nat) (rest : list nat),
    shape x = B :: rest
    /\ (0 < B)%nat /\ (3 <= L)%nat
    /\ shape t = [B; L]
    /\ wf_tensor t
    /\ exists t' : tensor fl,
         infer_label_probs self x mask true g = Ok (t', g')
         /\ data t' = data t
         /\ length (shape t') = 4%nat
         /\ numel (shape t') = (B * L)%nat.
Proof.
  intro H.
  apply infer_label_probs_inv in H as (logits & probs & rows & Hp & Hrows & ->).
  destruct (softmax_probs_inv _ _ _ _ _ _ _ Hp)
    as (B & rest & Hx & HB & Hlen & Hexact & Hall & Hdim).
  destruct (rows_layout probs rows B _ Hrows Hlen HB Hall) as (Hrl & H3 & Hrs).
  exists B, (numel (shape logits) / B)%nat, rest.
  split; [exact Hx|]. split; [exact HB|]. split; [exact H3|].
  cbn [shape data]. rewrite Hrl. split; [reflexivity|]. split.
  - unfold wf_tensor. cbn [shape data].
    rewrite (length_concat_uniform _ rows Hrs), Hrl.
    unfold numel. cbn [fold_right]. lia.
  - eexists. split; [apply (infer_label_probs_of _ _ _ true _ _ _ _ _ Hp Hrows)|].
    cbn [shape data]. split; [reflexivity|]. split; [exact Hdim|]. now rewrite Hexact.
Qed.

(** With fewer than three labels per image there is no third-highest
    probability.  When the cropped filter response has [L < 3] cells for
    each of the [B >= 1] images of the batch, none at all included, its
    view has [B] rows of [L] cells and label inference raises the index
    error of line 52, with or without [imshape]. *)
Theorem infer_label_probs_needs_three_labels
  (self : OracleInpainter) (x mask : tensor Q) (imshape : bool) (g g' : rng)
  (logits : tensor Q) (B L : nat) (rest : list nat) :
  label_logits self x mask g = Ok (logits, g') ->
  shape x = B :: rest -> (0 < B)%nat ->
  numel (shape logits) = (B * L)%nat -> (L < 3)%nat ->
  infer_label_probs self x mask imshape g
  = Raise (IndexError "index 2 is out of bounds for dimension 1").
Proof.
  intros Hlg Hx HB Hnum HL.
  assert (Hview : view_rows B logits = Ok (chunks L B (data logits))).
  { unfold view_rows. rewrite Hnum.
    destruct (Nat.eqb_spec B 0); [lia|].
    rewrite Nat.mul_comm, Nat.Div0.mod_mul. cbn [Nat.eqb].
    now rewrite Nat.div_mul by lia. }
  assert (Hp : softmax_probs self x mask g
               = Ok ((logits, map softmax (chunks L B (data logits))), g')).
  { unfold softmax_probs. rewrite (bind_ok _ _ _ _ _ Hlg). cbv beta.
    unfold len. rewrite Hx.
    rewrite (bind_ok _ _ _ _ _ (lift_ok _ _ g' (eq_refl (Ok B)))). cbv beta.
    rewrite (bind_ok _ _ _ _ _ (lift_ok _ _ g' Hview)). reflexivity. }
  unfold infer_label_probs. rewrite (bind_ok _ _ _ _ _ Hp). cbv beta. cbn [snd].
  apply bind_raise, lift_raise.
  destruct B as [|B]; [lia|]. cbn [chunks map rmapM].
  rewrite sparsify_short; [reflexivity|].
  rewrite softmax_length, length_firstn. lia.
Qed.

End Layout.

(** ** From the probabilities to the background *)

Lemma chunks_concat {A : Type} (len : nat) (ls : list (list A)) :
  Forall (fun l => length l = len) ls ->
  chunks len (length ls) (concat ls) = ls.
Proof.
  induction 1 as [|l ls Hl _ IH]; [reflexivity|].
  cbn [length chunks concat].
  assert (Hf : firstn len (l ++ concat ls) = l).
  { rewrite firstn_app, Hl, Nat.sub_diag, firstn_O, app_nil_r.
    rewrite <- Hl. apply firstn_all. }
  assert (Hs : skipn len (l ++ concat ls) = concat ls).
  { rewrite skipn_app, Hl, Nat.sub_diag, skipn_O.
    rewrite <- Hl, skipn_all. reflexivity. }
  now rewrite Hf, Hs, IH.
Qed.

Section Background.

Context {E : Externals}.

Lemma weight_ok (v : fl) (q : Q) : weight v = Ok q -> valid_weight v.
Proof.
  unfold weight. destruct v as [q'| | |]; try discriminate.
  destruct (Qle_bool 0 q') eqn:Hq; [|discriminate].
  intros _. exists q'. split; [reflexivity | now apply Qle_bool_iff].
Qed.

Lemma weights_outcome (row : list fl) :
  (exists w, weights row = Ok w /\ Forall valid_weight row)
  \/ (exists msg, weights row = Raise (RuntimeError msg)).
Proof.
  unfold weights.
  destruct (rmapM weight row) as [e|w] eqn:Hw; cbn [rbind].
  - right. revert e Hw. induction row as [|v row IH]; intros e Hw; cbn [rmapM] in Hw.
    + discriminate.
    + destruct (weight v) as [e'|q] eqn:Hv; cbn [rbind] in Hw.
      * injection Hw as <-. unfold weight in Hv.
        destruct v as [q| | |];
          try (injection Hv as <-; eexists; reflexivity).
        destruct (Qle_bool 0 q); [discriminate|].
        injection Hv as <-. eexists; reflexivity.
      * destruct (rmapM weight row) as [e'|w'] eqn:Hrow; cbn [rbind] in Hw;
          [|discriminate].
        injection Hw as <-. now apply (IH e').
  - destruct (Qle_bool (Qsum w) 0).
    + right. eexists; reflexivity.
    + left. exists w. split; [reflexivity|].
      apply rmapM_ok_Forall2 in Hw.
      induction Hw as [|v q row w' Hv _ IH]; constructor;
        [now apply (weight_ok v q) | exact IH].
Qed.

Lemma rmapM_weights_invalid (rows : list (list fl)) :
  Exists (fun row => Exists (fun v => ~ valid_weight v) row) rows ->
  exists msg, rmapM weights rows = Raise (RuntimeError msg).
Proof.
  induction rows as [|row rows IH]; intro Hex; [inversion Hex|].
  cbn [rmapM].
  destruct (weights_outcome row) as [(w & Hw & Hvalid)|(msg & Hmsg)].
  - rewrite Hw. cbn [rbind Ok].
    destruct IH as (msg & Hmsg).
    { inversion Hex as [? ? Hbad|? ? Htail]; subst; [|exact Htail].
      apply Exists_exists in Hbad as (v & Hv & Hbad).
      elim Hbad. apply (proj1 (Forall_forall _ _) Hvalid v Hv). }
    rewrite Hmsg. exists msg. reflexivity.
  - rewrite Hmsg. exists msg. reflexivity.
Qed.

(** The sampler is never fed an invalid row: whenever label inference
    returns a cell that is not a finite, non-negative number (the NaN row
    of a tie among the top three, for one), [generate_background] and
    [impute_missing_imgs] raise the run-time error of
    [torch.multinomial]. *)
Theorem generate_background_rejects_invalid_probabilities
  (self : OracleInpainter) (x mask : tensor Q) (g g1 : rng) (lp : tensor fl) :
  infer_label_probs self x mask false g = Ok (lp, g1) ->
  Exists (fun v => ~ valid_weight v) (data lp) ->
  exists msg : string,
    generate_background self x mask g = Raise (RuntimeError msg)
    /\ impute_missing_imgs self x mask g = Raise (RuntimeError msg).
Proof.
  intros Hlp Hbad.
  pose proof Hlp as Hinv.
  apply infer_label_probs_inv in Hinv as (logits & probs & rows & Hp & Hrows & Heq).
  destruct (softmax_probs_inv _ _ _ _ _ _ _ Hp)
    as (B & rest & Hx & HB & Hlen & Hexact & Hall & Hdim).
  destruct (rows_layout probs rows B _ Hrows Hlen HB Hall) as (Hrl & H3 & Hrs).
  set (L := (numel (shape logits) / B)%nat) in *.
  assert (Hshape : shape lp = [B; L]) by (subst lp; cbn [shape]; now rewrite Hrl).
  assert (Hdata : chunks L B (data lp) = rows).
  { subst lp. cbn [data]. rewrite <- Hrl. now apply chunks_concat. }
  assert (Hrowbad : Exists (fun row => Exists (fun v => ~ valid_weight v) row) rows).
  { apply Exists_exists in Hbad as (v & Hv & Hbad).
    subst lp. cbn [data] in Hv. apply in_concat in Hv as (row & Hrow & Hv).
    apply Exists_exists. exists row. split; [exact Hrow|].
    apply Exists_exists. now exists v. }
  destruct (rmapM_weights_invalid rows Hrowbad) as (msg & Hmsg).
  exists msg.
  assert (Hgen : generate_background self x mask g = Raise (RuntimeError msg)).
  { unfold generate_background. rewrite (bind_ok _ _ _ _ _ Hlp). cbv beta.
    apply bind_raise. unfold multinomial. rewrite Hshape, Hdata.
    apply bind_raise, lift_raise. exact Hmsg. }
  split; [exact Hgen|].
  unfold impute_missing_imgs. now apply bind_raise.
Qed.

End Background.

(** ** The background of a batch *)

Lemma stack_shape {A : Type} (s : list nat) (ts : list (tensor A)) :
  ts <> [] ->
  Forall (fun t => shape t = s) ts ->
  exists t, stack ts = Ok t /\ shape t = length ts :: s.
Proof.
  intros Hne Hall. destruct ts as [|t0 ts]; [congruence|].
  unfold stack.
  assert (Hs0 : shape t0 = s) by (inversion Hall; assumption).
  assert (Hb : forallb (fun u => shape_eqb (shape u) (shape t0)) (t0 :: ts) = true).
  { apply forallb_forall. intros u Hu.
    rewrite (proj1 (Forall_forall _ _) Hall u Hu), Hs0. apply shape_eqb_refl. }
  rewrite Hb. eexists. split; [reflexivity|]. cbn [shape]. now rewrite Hs0.
Qed.

Section BackgroundOfBatch.

Context {E : Externals}.

Lemma multinomial_samples (t : tensor fl) (B L : nat) (g g' : rng) (s : tensor Z) :
  shape t = [B; L] ->
  multinomial t g = Ok (s, g') ->
  shape s = [B; 1%nat] /\ length (data s) = B.
Proof.
  intros Ht Hrun. unfold multinomial in Hrun. rewrite Ht in Hrun.
  apply bind_ok_inv in Hrun as (ws & g1 & Hws & Hrun).
  apply lift_ok_inv in Hws as [Hws ->].
  destruct (mapM_draw_length multinomial1 ws g) as (l & g2 & Hl & Hlen).
  rewrite (bind_ok _ _ _ _ _ Hl) in Hrun. cbv beta in Hrun.
  injection Hrun as <- _. cbn [shape data]. split; [reflexivity|].
  rewrite length_map, Hlen, (rmapM_length _ _ _ Hws). apply chunks_length.
Qed.

Lemma iter_array_vector {A : Type} (B : nat) (d : list A) :
  exists l, iter_array (mkTensor [B] d) = Ok l /\ length l = B.
Proof.
  unfold iter_array. cbn [shape data]. eexists. split; [reflexivity|].
  now rewrite length_map, chunks_length.
Qed.

(** For a batch of two or more one-channel images, whenever label
    inference and the sampling of the labels succeed,
    [generate_background] returns the stack of one generated image per
    input image; when the generator yields images of the input's shape,
    [impute_missing_imgs] returns a batch of the shape of its input. *)
Theorem generate_background_stacks_one_image_per_input
  (self : OracleInpainter) (x mask : tensor Q) (g g1 g2 : rng)
  (lp : tensor fl) (samples : tensor Z) (B H W : nat) (s : list nat) :
  shape x = [B; 1; H; W]%nat -> B <> 1%nat -> (0 < H)%nat -> (0 < W)%nat ->
  (forall beta label, shape (generate_image beta label) = s) ->
  infer_label_probs self x mask false g = Ok (lp, g1) ->
  multinomial lp g1 = Ok (samples, g2) ->
  exists infill : tensor Q,
    generate_background self x mask g = Ok (infill, g2)
    /\ shape infill = B :: s
    /\ (s = [1; H; W]%nat -> shape mask = shape x ->
        exists out : tensor Q,
          impute_missing_imgs self x mask g = Ok (out, g2)
          /\ shape out = shape x).
Proof.
  intros Hx HB HH HW Himg Hlp Hs.
  destruct (infer_label_probs_rows _ _ _ _ _ _ _ _ Hlp Hx) as [L HL].
  destruct (multinomial_samples _ _ _ _ _ _ HL Hs) as [Hss Hsl].
  assert (HB0 : (0 < B)%nat).
  { apply infer_label_probs_inv in Hlp as (logits & probs & rows & Hp & _).
    destruct (softmax_probs_inv _ _ _ _ _ _ _ Hp) as (B' & rest & Hx' & HB' & _).
    rewrite Hx in Hx'. injection Hx' as <- _. exact HB'. }
  assert (Hsq : forall (A : Type) (d : list A),
            squeeze (mkTensor [B; 1%nat] d) = mkTensor [B] d).
  { intros A d. unfold squeeze. cbn [shape data filter].
    destruct (Nat.eqb_spec B 1); [contradiction|]. reflexivity. }
  assert (Hlabels : exists ls, iter_array (squeeze samples) = Ok ls /\ length ls = B).
  { destruct samples as [sh d]. cbn [shape data] in Hss, Hsl. subst sh.
    rewrite Hsq. apply iter_array_vector. }
  destruct Hlabels as (ls & Hls & Hlsl).
  pose proof (estimate_betas_4d x B H W Hx HH HW) as Hb. rewrite Hsq in Hb.
  destruct (iter_array_vector B
              (map (clamp 0 1)
                 (map max_of (chunks H B (map max_of (chunks W (B * H) (data x)))))))
    as (bs & Hbs & Hbsl).
  destruct (stack_shape s (map (fun lb => generate_image (snd lb) (fst lb))
                             (combine ls bs)))
    as (infill & Hstack & Hshape).
  { intro Hnil. apply (f_equal (@length _)) in Hnil.
    rewrite length_map, length_combine in Hnil. cbn in Hnil. lia. }
  { apply Forall_map, Forall_forall. intros lb _. apply Himg. }
  rewrite length_map, length_combine, Hlsl, Hbsl, Nat.min_id in Hshape.
  assert (Hgen : generate_background self x mask g = Ok (infill, g2)).
  { unfold generate_background.
    rewrite (bind_ok _ _ _ _ _ Hlp). cbv beta.
    rewrite (bind_ok _ _ _ _ _ Hs). cbv beta zeta.
    rewrite (bind_ok _ _ _ _ _ (lift_ok _ _ g2 Hb)). cbv beta.
    rewrite (bind_ok _ _ _ _ _ (lift_ok _ _ g2 Hls)). cbv beta.
    rewrite (bind_ok _ _ _ _ _ (lift_ok _ _ g2 Hbs)). cbv beta.
    now apply lift_ok. }
  exists infill. split; [exact Hgen|]. split; [exact Hshape|].
  intros -> Hm.
  assert (Hbg : shape infill = shape x) by (now rewrite Hshape, Hx).
  unfold impute_missing_imgs, tmul, tadd.
  rewrite (bind_ok _ _ _ _ _ Hgen). cbv beta.
  rewrite (bind_ok _ _ _ _ _
             (lift_ok _ _ g2 (tzip_same_shape Qmult x mask (eq_sym Hm)))).
  cbv beta.
  rewrite (bind_ok _ _ _ _ _
             (lift_ok _ _ g2 (tzip_same_shape Qmult infill (one_minus mask)
                                (eq_trans Hbg (eq_sym Hm))))).
  cbv beta. eexists. split.
  - apply lift_ok, tzip_same_shape. cbn [shape]. congruence.
  - reflexivity.
Qed.

(** With the average filter, a block width of [2 h] and images of side
    [7 h] (three and a half block widths), the filter response is six by
    six and its crop four by four, as the comment of line 48 says: label
    inference always returns, with sixteen probabilities per image. *)
Theorem average_filter_gives_sixteen_labels
  (mode : string) (trace : list init_event) (self : OracleInpainter)
  (x mask : tensor Q) (g : rng) (B h : nat) :
  __init__ mode = (trace, Ok self) -> lower mode <> "median"%string ->
  block_width = Z.of_nat (2 * h) -> (0 < h)%nat -> (0 < B)%nat ->
  shape x = [B; 1; 7 * h; 7 * h]%nat -> shape mask = shape x ->
  exists (t : tensor fl) (g' : rng),
    infer_label_probs self x mask false g = Ok (t, g')
    /\ shape t = [B; 16]%nat.
Proof.
  intros Hinit Hmode Hbw Hh HB Hx Hm.
  assert (Hfilt : filt self = mkPool AvgPool2d block_width (block_width / 2)%Z).
  { unfold __init__ in Hinit.
    destruct (str_in (lower mode) supported_modes); [|discriminate].
    injection Hinit as _ <-. cbn [filt].
    destruct (String.eqb_spec (lower mode) "median"); [contradiction | reflexivity]. }
  destruct (masked_input_ok x mask g Hm) as (noise & g' & _ & _ & Hxm);
    [rewrite Hx; discriminate|].
  set (xm := mkTensor (shape x) _) in Hxm.
  assert (Hk : Z.to_nat block_width = (2 * h)%nat) by lia.
  assert (Hst : Z.to_nat (block_width / 2) = h).
  { rewrite Hbw. replace (Z.of_nat (2 * h)) with (Z.of_nat h * 2)%Z by lia.
    rewrite Z.div_mul by lia. lia. }
  assert (Hpool : exists raw,
    filt_forward (filt self) xm = Ok raw /\ shape raw = [B; 1; 6; 6]%nat).
  { rewrite Hfilt. unfold filt_forward. cbn [pool_class kernel_size stride].
    unfold AvgPool2d_forward, pool2d. unfold xm at 1. cbn [shape]. rewrite Hx.
    destruct (Z.leb_spec block_width 0); [lia|].
    destruct (Z.leb_spec (block_width / 2) 0); [lia|]. cbn [orb].
    rewrite Hk, Hst.
    destruct (Nat.ltb_spec (7 * h) (2 * h)); [lia|]. cbn [orb].
    eexists. split; [reflexivity|]. cbn [init4 shape].
    replace ((7 * h - 2 * h) / h)%nat with 5%nat; [reflexivity|].
    replace (7 * h - 2 * h)%nat with (5 * h)%nat by lia.
    symmetry. apply Nat.div_mul. lia. }
  destruct Hpool as (raw & Hraw & Hrs).
  assert (Hcrop : exists lg, crop_border raw = Ok lg /\ shape lg = [B; 1; 4; 4]%nat).
  { unfold crop_border. rewrite Hrs. eexists. split; reflexivity. }
  destruct Hcrop as (lg & Hlg & Hls).
  destruct (crop_border_ok raw lg Hlg) as [Hwf _].
  assert (Hnum : numel (shape lg) = (B * 16)%nat)
    by (rewrite Hls; unfold numel; cbn [fold_right]; lia).
  assert (Hview : view_rows B lg = Ok (chunks 16 B (data lg))).
  { unfold view_rows. rewrite Hnum.
    destruct (Nat.eqb_spec B 0); [lia|].
    rewrite Nat.mul_comm, Nat.Div0.mod_mul. cbn [Nat.eqb].
    now rewrite Nat.div_mul by lia. }
  assert (Hp : softmax_probs self x mask g
               = Ok ((lg, map softmax (chunks 16 B (data lg))), g')).
  { unfold softmax_probs, label_logits.
    rewrite (bind_ok _ _ g g' (lg)).
    - cbv beta. unfold len. rewrite Hx.
      rewrite (bind_ok _ _ _ _ _ (lift_ok _ _ g' (eq_refl (Ok B)))). cbv beta.
      rewrite (bind_ok _ _ _ _ _ (lift_ok _ _ g' Hview)). reflexivity.
    - rewrite (bind_ok _ _ _ _ _ Hxm). cbv beta.
      rewrite (bind_ok _ _ _ _ _ (lift_ok _ _ g' Hraw)). cbv beta.
      now apply lift_ok. }
  destruct (rmapM_Forall2 sparsify (fun p r => length r = length p)
              (map softmax (chunks 16 B (data lg))))
    as (rows & Hrows & HF).
  { intros p Hp'. apply in_map_iff in Hp' as (row & <- & Hrow).
    apply sparsify_long. rewrite softmax_length.
    assert (Hall : Forall (fun c => length c = 16%nat) (chunks 16 B (data lg))).
    { apply chunks_all_length. unfold wf_tensor in Hwf. lia. }
    rewrite (proj1 (Forall_forall _ _) Hall row Hrow). lia. }
  exists (mkTensor [length rows; (numel (shape lg) / length rows)%nat] (concat rows)), g'.
  split; [apply (infer_label_probs_of _ _ _ false _ _ _ _ _ Hp Hrows)|].
  cbn [shape].
  rewrite (rmapM_length _ _ _ Hrows), length_map, chunks_length, Hnum.
  now rewrite Nat.mul_comm, Nat.div_mul by lia.
Qed.

End BackgroundOfBatch.

(* ================================================================== *)
(** * The program run on the instance *)

Module Runs.

Import Fixture.

Example init_avg : snd (__init__ "AVG") = Ok avg.
Proof. reflexivity. Qed.

Lemma init_rejects_unsupported_mode_witness :
  str_in (lower "unsupported") supported_modes = false
  /\ __init__ "unsupported"
     = ([SuperInit], Raise (AssertionError "unsupported mode")).
Proof.
  split; [reflexivity|].
  apply (init_rejects_unsupported_mode "unsupported"). reflexivity.
Defined.

Lemma random_mask_shape_and_cells_witness :
  exists t g',
    random_mask [2; 3]%nat (1 # 2) seed = Ok (t, g')
    /\ shape t = [1; 2; 3]%nat
    /\ length (data t) = 6%nat
    /\ Forall (fun v => v = 0 \/ v = 1) (data t).
Proof.
  apply (random_mask_shape_and_cells [2; 3]%nat (1 # 2) seed);
    [vm_compute; discriminate | vm_compute; discriminate | discriminate].
Defined.

(** C4, the claim as worded fails: the mask of a two by three image has
    three dimensions, not the image's two. *)
Lemma random_mask_shape_differs_from_image_shape :
  exists t g',
    random_mask [2; 3]%nat (1 # 2) seed = Ok (t, g')
    /\ shape t = [1; 2; 3]%nat
    /\ shape t <> [2; 3]%nat.
Proof.
  eexists _, _. split; [vm_compute; reflexivity|].
  split; [reflexivity | discriminate].
Qed.

Lemma infer_label_probs_same_noise_same_result_witness :
  value (randn [1; 1; 6; 6]%nat seed) = value (randn [1; 1; 6; 6]%nat seed')
  /\ value (infer_label_probs avg (batch [pair6]) (batch [strips6]) false seed)
     = value (infer_label_probs avg (batch [pair6]) (batch [strips6]) false seed').
Proof.
  assert (H : value (randn (shape (batch [strips6])) seed)
              = value (randn (shape (batch [strips6])) seed'))
    by (vm_compute; reflexivity).
  split; [exact H|].
  exact (infer_label_probs_same_noise_same_result
           avg (batch [pair6]) (batch [strips6]) false seed seed' H).
Defined.

Lemma generate_background_fails_on_singleton_batch_witness :
  shape (batch [pair6]) = [1; 1; 6; 6]%nat
  /\ generate_background avg (batch [pair6]) (batch [zeros6]) seed
     = Raise (TypeError "iteration over a 0-d array")
  /\ impute_missing_imgs avg (batch [pair6]) (batch [zeros6]) seed
     = Raise (TypeError "iteration over a 0-d array").
Proof.
  split; [reflexivity|].
  destruct (generate_background_fails_on_singleton_batch
              avg (batch [pair6]) (batch [zeros6]) seed [1; 6; 6]%nat eq_refl)
    as [(e & He & Himp) Hcause].
  assert (Hgen : generate_background avg (batch [pair6]) (batch [zeros6]) seed
                 = Raise (TypeError "iteration over a 0-d array")).
  { eapply Hcause.
    - vm_compute. reflexivity.
    - vm_compute. reflexivity.
    - vm_compute. reflexivity. }
  split; [exact Hgen|].
  rewrite Himp, <- He. exact Hgen.
Defined.

Lemma half_block_mask_cells_are_binary_witness :
  exists t g',
    random_half_block_mask [6; 6]%nat (Some 4%Z) seed = Ok (t, g')
    /\ Forall binary (data t).
Proof.
  destruct (half_block_mask_cells_are_binary [6; 6]%nat (Some 4%Z) seed)
    as [Hbin Hret].
  destruct Hret as (t & g' & Hrun); [vm_compute; discriminate | cbn; lia |].
  exists t, g'. split; [exact Hrun | exact (Hbin t g' Hrun)].
Defined.

Lemma half_block_mask_is_two_half_strips_witness :
  exists t,
    random_half_block_mask [6; 6]%nat (Some 4%Z) seed = Ok (t, seed)
    /\ shape t = [1; 6; 6]%nat
    /\ cell2 6 t 2 2 = 1 /\ cell2 6 t 2 3 = 0 /\ cell2 6 t 2 4 = 1.
Proof.
  destruct (half_block_mask_is_two_half_strips 6 6 4%Z seed 2 4 2 4 (-1))
    as (t & Hrun & Hshape & Hcell & _);
    [vm_compute; reflexivity | vm_compute; reflexivity
    | lia | lia | lia | lia | lia |].
  exists t. split; [exact Hrun|]. split; [exact Hshape|].
  rewrite !Hcell by lia. repeat split.
Defined.

(** C6, the claim as worded fails: the pixel in row 2 and column 1 lies
    in the patch of label 4 shifted by its offset, so it belongs to the
    union of the two shifted patches, and the mask leaves it clear. *)
Lemma half_block_mask_is_not_the_union :
  exists t g',
    random_half_block_mask [6; 6]%nat (Some 4%Z) seed = Ok (t, g')
    /\ _label_to_patch_pixels 4 block_width (block_width / 2) = (2, 4, 2, 4)%Z
    /\ half_block_offset 4 = Ok (-1)%Z
    /\ union_of_shifts_spec (mkRect 2 4 2 4) (-1) 2 1 = 1
    /\ cell2 6 t 2 1 = 0
    /\ cell2 6 t 2 1 <> union_of_shifts_spec (mkRect 2 4 2 4) (-1) 2 1.
Proof.
  eexists _, _. split; [vm_compute; reflexivity|].
  repeat split; try (vm_compute; reflexivity).
  vm_compute. discriminate.
Qed.

Lemma beta_is_clamped_max_of_all_pixels_witness :
  exists betas,
    estimate_betas (batch [pair6; centre6]) = Ok betas
    /\ length (data betas) = 2%nat
    /\ shape betas = [2%nat].
Proof.
  destruct (beta_is_clamped_max_of_all_pixels (batch [pair6; centre6]) 2 6 6)
    as (betas & Hrun & Hlen & Hshape & _);
    try reflexivity; try lia.
  exists betas. split; [exact Hrun|]. split; [exact Hlen|].
  apply Hshape. discriminate.
Defined.

(** C5, the claim as worded fails: with the two brightest pixels of the
    first image masked, the largest visible pixel is one half, and the
    estimate of beta is still one. *)
Lemma beta_counts_occluded_pixels :
  exists betas,
    estimate_betas (batch [pair6; centre6]) = Ok betas
    /\ data betas = [1; 1]
    /\ beta_from_visible_spec 2 6 6 (batch [pair6; centre6]) (batch [hide6; zeros6])
       = [1 # 2; 1]
    /\ data betas
       <> beta_from_visible_spec 2 6 6 (batch [pair6; centre6]) (batch [hide6; zeros6]).
Proof.
  eexists. split; [vm_compute; reflexivity|].
  split; [vm_compute; reflexivity|].
  split; [vm_compute; reflexivity|].
  vm_compute. discriminate.
Qed.

(** C1, the code at an all-zero mask: the imputed batch is the
    synthesised background, not the input.  At cell 13 of the first image
    (row 2, column 1), where the mask is 0, the input holds 1 and the
    output holds the background's 0. *)
Theorem impute_all_zero_mask_returns_background :
  exists bg out g1 g2,
    generate_background avg (batch [pair6; centre6]) (batch [zeros6; zeros6]) seed
    = Ok (bg, g1)
    /\ impute_missing_imgs avg (batch [pair6; centre6]) (batch [zeros6; zeros6]) seed
       = Ok (out, g2)
    /\ Forall2 Qeq (data out) (data bg)
    /\ nth 13 (data (batch [zeros6; zeros6])) 0 = 0
    /\ nth 13 (data (batch [pair6; centre6])) 0 = 1
    /\ nth 13 (data out) 0 == 0
    /\ ~ nth 13 (data out) 0 == nth 13 (data (batch [pair6; centre6])) 0.
Proof.
  eexists _, _, _, _.
  split; [vm_compute; reflexivity|].
  split; [vm_compute; reflexivity|].
  split; [cbn [data]; repeat (constructor; [reflexivity|]); constructor|].
  repeat split. vm_compute. discriminate.
Qed.

(** C2, the code on a constant image: every softmax probability equals
    the third-highest one, none is kept, and the row divided by its zero
    sum is NaN throughout. *)
Theorem infer_label_probs_of_constant_image_is_nan :
  exists g',
    infer_label_probs avg (batch [zeros6]) (batch [zeros6]) false seed
    = Ok (mkTensor [1; 9]%nat (repeat NaN 9), g').
Proof.
  eexists. vm_compute. reflexivity.
Qed.

(** C3, the claim as worded fails: for the image of the centre patch the
    second- and third-highest probabilities are equal, and the heuristic
    keeps one probability, not two. *)
Lemma top_two_tie_keeps_one :
  exists logits p t g',
    softmax_probs avg (batch [centre6]) (batch [zeros6]) seed
    = Ok ((logits, [p]), g')
    /\ (exists a b c rest, sort_desc p = a :: b :: c :: rest /\ b == c)
    /\ infer_label_probs avg (batch [centre6]) (batch [zeros6]) false seed
       = Ok (t, g')
    /\ length (filter fl_nonzero (data t)) = 1%nat.
Proof.
  eexists _, _, _, _.
  split; [vm_compute; reflexivity|].
  split.
  { eexists _, _, _, _. split; [vm_compute; reflexivity | reflexivity]. }
  split; [vm_compute; reflexivity|].
  vm_compute. reflexivity.
Qed.

Lemma top_two_kept_when_third_is_strictly_lower_witness :
  exists logits probs g',
    softmax_probs avg (batch [pair6]) (batch [zeros6]) seed
    = Ok ((logits, probs), g')
    /\ (forall p, In p probs ->
          exists a b c rest, sort_desc p = a :: b :: c :: rest /\ c < b)
    /\ exists t rows,
         infer_label_probs avg (batch [pair6]) (batch [zeros6]) false seed
         = Ok (t, g')
         /\ data t = concat rows
         /\ Forall2 top_two_of probs rows.
Proof.
  eexists _, _, _.
  split; [vm_compute; reflexivity|].
  match goal with
  | |- ?G /\ _ => assert (Hgap : G)
  end.
  { intros p [<- | []].
    eexists _, _, _, _. split; [vm_compute; reflexivity | reflexivity]. }
  split; [exact Hgap|].
  eapply top_two_kept_when_third_is_strictly_lower; [|exact Hgap].
  vm_compute. reflexivity.
Defined.

Lemma impute_keeps_input_where_mask_is_one_witness :
  exists bg g1 out,
    generate_background avg (batch [pair6; centre6]) (batch [strips6; zeros6]) seed
    = Ok (bg, g1)
    /\ impute_missing_imgs avg (batch [pair6; centre6]) (batch [strips6; zeros6]) seed
       = Ok (out, g1)
    /\ nth 14 (data (batch [strips6; zeros6])) 0 = 1
    /\ nth 14 (data out) 0 == nth 14 (data (batch [pair6; centre6])) 0
    /\ nth 13 (data (batch [strips6; zeros6])) 0 = 0
    /\ nth 13 (data out) 0 == nth 13 (data bg) 0.
Proof.
  eexists _, _.
  assert (Hbg : generate_background avg (batch [pair6; centre6])
                  (batch [strips6; zeros6]) seed = Ok (?[bg], ?[g1]))
    by (vm_compute; reflexivity).
  destruct (impute_keeps_input_where_mask_is_one
              avg (batch [pair6; centre6]) (batch [strips6; zeros6])
              _ seed _ 72%nat Hbg)
    as (out & Hrun & _ & Hcells); try reflexivity.
  exists out. split; [exact Hbg|]. split; [exact Hrun|].
  destruct (Hcells 14%nat ltac:(lia)) as [Hone _].
  destruct (Hcells 13%nat ltac:(lia)) as [_ Hzero].
  split; [reflexivity|]. split; [apply Hone; reflexivity|].
  split; [reflexivity|]. apply Hzero. reflexivity.
Defined.

Lemma label_probs_are_a_distribution_without_top_tie_witness :
  exists logits probs g',
    softmax_probs avg (batch [centre6]) (batch [zeros6]) seed
    = Ok ((logits, probs), g')
    /\ (forall p, In p probs ->
          exists a b c rest, sort_desc p = a :: b :: c :: rest /\ c < a)
    /\ exists t rows,
         infer_label_probs avg (batch [centre6]) (batch [zeros6]) false seed
         = Ok (t, g')
         /\ data t = concat rows
         /\ Forall distribution_on_two rows.
Proof.
  eexists _, _, _.
  split; [vm_compute; reflexivity|].
  match goal with
  | |- ?G /\ _ => assert (Hgap : G)
  end.
  { intros p [<- | []].
    eexists _, _, _, _. split; [vm_compute; reflexivity | reflexivity]. }
  split; [exact Hgap|].
  destruct (label_probs_are_a_distribution_without_top_tie
              avg (batch [centre6]) (batch [zeros6]) seed _ _ _
              ltac:(vm_compute; reflexivity) Hgap)
    as (t & rows & Hrun & _ & Hdata & _ & Hdist).
  exists t, rows. repeat split; assumption.
Defined.

Lemma init_reads_mode_without_case_witness :
  str_in (lower "AVG") supported_modes = true
  /\ __init__ "AVG" = __init__ "avg"
  /\ snd (__init__ "AVG") = Ok avg.
Proof.
  destruct (init_reads_mode_without_case "AVG") as [Hcase Hok].
  split; [reflexivity|]. split; [symmetry; exact Hcase|].
  destruct (Hok eq_refl) as (f & Hrun & _). reflexivity.
Defined.

Lemma driver_filter_matches_inpainter_filter_witness :
  exists trace o,
    __init__ "Median" = (trace, Ok o)
    /\ pool_class (filt o) = MedianPool2d
    /\ pool_class (driver_filter "Median") = AvgPool2d
    /\ filt o <> driver_filter "Median".
Proof.
  eexists _, _. split; [reflexivity|].
  split; [reflexivity|]. split; [reflexivity|].
  intro Heq.
  apply (driver_filter_matches_inpainter_filter "Median" _ _ eq_refl) in Heq;
    [discriminate | reflexivity].
Defined.

Lemma random_mask_batch_shape_and_cells_witness :
  exists t g',
    random_mask_batch 2 [2; 3]%nat (1 # 2) seed = Ok (t, g')
    /\ shape t = [2; 1; 2; 3]%nat
    /\ wf_tensor t
    /\ Forall binary (data t).
Proof.
  apply (random_mask_batch_shape_and_cells 2 [2; 3]%nat (1 # 2) seed);
    [vm_compute; discriminate | vm_compute; discriminate | discriminate | lia].
Defined.

Lemma random_mask_batch_edges_witness :
  random_mask_batch 0 [2; 3]%nat 2 seed
  = Raise (RuntimeError "stack expects a non-empty TensorList")
  /\ random_mask_batch 3 [2; 3]%nat 2 seed
     = Raise (ValueError "p < 0, p > 1 or p is NaN").
Proof.
  destruct (random_mask_batch_edges 2 [2; 3]%nat 2 seed) as [Hempty Hout].
  split; [exact Hempty|].
  apply Hout. right. reflexivity.
Defined.


Lemma half_block_mask_batch_follows_labels_witness :
  exists t,
    random_half_block_mask_batch 5 [6; 6]%nat (Some [Some 4%Z; Some 0%Z]) seed
    = Ok (t, seed)
    /\ shape t = [2; 1; 6; 6]%nat
    /\ wf_tensor t
    /\ Forall binary (data t).
Proof.
  destruct (half_block_mask_batch_follows_labels 5 6 6 [] [4%Z; 0%Z] seed)
    as [Hrun _]; [vm_compute; discriminate | discriminate |].
  exact Hrun.
Defined.

Lemma half_block_offset_by_column_witness :
  (4 mod Z.sqrt num_labels < 2)%Z
  /\ half_block_offset 4 = Ok (- ((block_width + 1) / 2))%Z.
Proof.
  split; [vm_compute; reflexivity|].
  destruct (half_block_offset_by_column 4) as (off & Hoff & Hleft & _);
    [vm_compute; discriminate|].
  rewrite Hoff, Hleft; [reflexivity | vm_compute; reflexivity].
Defined.

Lemma half_block_mask_without_offset_is_the_patch_witness :
  @half_block_offset narrow 2 = Ok 0%Z
  /\ @random_half_block_mask narrow [6; 6]%nat (Some 2%Z) 1%Z
     = Ok (unsqueeze0
             (mkTensor [6; 6]%nat
                (ground_truth_block 6 6 1 (grid_patch_pixels 2 1 0))), 1%Z).
Proof.
  split; [reflexivity|].
  apply (@half_block_mask_without_offset_is_the_patch narrow 6 6 [] 2%Z 1%Z).
  reflexivity.
Defined.

Lemma masked_input_keeps_cells_where_mask_is_zero_witness :
  exists noise xm g',
    randn [1; 1; 6; 6]%nat seed = Ok (noise, g')
    /\ masked_input (batch [pair6]) (batch [strips6]) seed = Ok (xm, g')
    /\ nth 13 (data (batch [strips6])) 0 = 0
    /\ nth 13 (data xm) 0 == nth 13 (data (batch [pair6])) 0
    /\ nth 14 (data (batch [strips6])) 0 = 1
    /\ nth 14 (data xm) 0 == noise_level * nth 14 (data noise) 0.
Proof.
  destruct (masked_input_keeps_cells_where_mask_is_zero
              (batch [pair6]) (batch [strips6]) seed 36%nat)
    as (noise & xm & g' & Hnoise & Hrun & _ & Hcells);
    [reflexivity | discriminate | reflexivity | reflexivity | reflexivity |].
  exists noise, xm, g'. split; [exact Hnoise|]. split; [exact Hrun|].
  destruct (Hcells 13%nat ltac:(lia)) as [Hzero _].
  destruct (Hcells 14%nat ltac:(lia)) as [_ Hone].
  split; [reflexivity|]. split; [apply Hzero; reflexivity|].
  split; [reflexivity|]. apply Hone; reflexivity.
Defined.

Lemma infer_label_probs_layout_witness :
  exists t t' g',
    infer_label_probs avg (batch [pair6]) (batch [zeros6]) false seed = Ok (t, g')
    /\ shape t = [1; 9]%nat
    /\ infer_label_probs avg (batch [pair6]) (batch [zeros6]) true seed = Ok (t', g')
    /\ data t' = data t
    /\ shape t' = [1; 1; 3; 3]%nat.
Proof.
  eexists _, _, _.
  assert (Hrun : infer_label_probs avg (batch [pair6]) (batch [zeros6]) false seed
                 = Ok (?[t], ?[g']))
    by (vm_compute; reflexivity).
  destruct (infer_label_probs_layout avg (batch [pair6]) (batch [zeros6]) seed _ _ Hrun)
    as (B & L & rest & _ & _ & _ & _ & _ & t' & Hrun' & Hdata & _).
  split; [exact Hrun|]. split; [reflexivity|].
  assert (Heq : infer_label_probs avg (batch [pair6]) (batch [zeros6]) true seed
                = Ok (?[t'], ?[g'']))
    by (vm_compute; reflexivity).
  split; [exact Heq|].
  rewrite Heq in Hrun'. injection Hrun' as <-.
  split; [exact Hdata | reflexivity].
Defined.

Lemma infer_label_probs_needs_three_labels_witness :
  exists logits g',
    label_logits avg (zeros [1; 1; 3; 3]%nat) (zeros [1; 1; 3; 3]%nat) seed
    = Ok (logits, g')
    /\ shape logits = [1; 1; 0; 0]%nat
    /\ infer_label_probs avg (zeros [1; 1; 3; 3]%nat) (zeros [1; 1; 3; 3]%nat) false seed
       = Raise (IndexError "index 2 is out of bounds for dimension 1").
Proof.
  eexists _, _.
  assert (Hlg : label_logits avg (zeros [1; 1; 3; 3]%nat) (zeros [1; 1; 3; 3]%nat) seed
                = Ok (?[logits], ?[g']))
    by (vm_compute; reflexivity).
  split; [exact Hlg|]. split; [reflexivity|].
  apply (infer_label_probs_needs_three_labels avg _ _ false seed _ _ 1 0 [1; 3; 3]%nat Hlg);
    [reflexivity | lia | reflexivity | lia].
Defined.

Lemma generate_background_rejects_invalid_probabilities_witness :
  exists lp g1 msg,
    infer_label_probs avg (batch [zeros6; pair6]) (batch [zeros6; zeros6]) false seed
    = Ok (lp, g1)
    /\ nth 0 (data lp) (Fin 0) = NaN
    /\ generate_background avg (batch [zeros6; pair6]) (batch [zeros6; zeros6]) seed
       = Raise (RuntimeError msg)
    /\ impute_missing_imgs avg (batch [zeros6; pair6]) (batch [zeros6; zeros6]) seed
       = Raise (RuntimeError msg).
Proof.
  eexists _, _.
  assert (Hlp : infer_label_probs avg (batch [zeros6; pair6]) (batch [zeros6; zeros6])
                  false seed = Ok (?[lp], ?[g1]))
    by (vm_compute; reflexivity).
  destruct (generate_background_rejects_invalid_probabilities
              avg (batch [zeros6; pair6]) (batch [zeros6; zeros6]) seed _ _ Hlp)
    as (msg & Hgen & Himp).
  { apply Exists_cons_hd. intros (q & Hq & _). discriminate. }
  exists msg. split; [exact Hlp|]. split; [reflexivity|].
  split; [exact Hgen | exact Himp].
Defined.

Lemma generate_background_stacks_one_image_per_input_witness :
  exists infill out g2,
    generate_background avg (batch [pair6; centre6]) (batch [strips6; zeros6]) seed
    = Ok (infill, g2)
    /\ shape infill = [2; 1; 6; 6]%nat
    /\ impute_missing_imgs avg (batch [pair6; centre6]) (batch [strips6; zeros6]) seed
       = Ok (out, g2)
    /\ shape out = [2; 1; 6; 6]%nat.
Proof.
  assert (Hlp : infer_label_probs avg (batch [pair6; centre6])
                  (batch [strips6; zeros6]) false seed = Ok (?[lp], ?[g1]))
    by (vm_compute; reflexivity).
  match type of Hlp with
  | _ = Ok (?lp, ?g1) =>
      assert (Hs : multinomial lp g1 = Ok (?[samples], ?[g2]))
        by (vm_compute; reflexivity)
  end.
  destruct (generate_background_stacks_one_image_per_input
              avg (batch [pair6; centre6]) (batch [strips6; zeros6])
              seed _ _ _ _ 2 6 6 [1; 6; 6]%nat
              eq_refl ltac:(discriminate) ltac:(lia) ltac:(lia)
              (fun _ _ => eq_refl) Hlp Hs)
    as (infill & Hgen & Hshape & Himp).
  destruct (Himp eq_refl eq_refl) as (out & Hout & Hos).
  exists infill, out. eexists.
  split; [exact Hgen|]. split; [exact Hshape|].
  split; [exact Hout | exact Hos].
Defined.

Lemma average_filter_gives_sixteen_labels_witness :
  exists t g',
    infer_label_probs avg (zeros [2; 1; 7; 7]%nat) (zeros [2; 1; 7; 7]%nat) false seed
    = Ok (t, g')
    /\ shape t = [2; 16]%nat.
Proof.
  apply (average_filter_gives_sixteen_labels "avg" [SuperInit; BuildFilter (filt avg)]
           avg (zeros [2; 1; 7; 7]%nat) (zeros [2; 1; 7; 7]%nat) seed 2 1);
    [reflexivity | discriminate | reflexivity | lia | lia | reflexivity | reflexivity].
Defined.

End Runs.
